(** * NimbleSM: the 8-node hexahedral element kernel (src/nimble_element.h)

    A shallow embedding of [nimble::HexElement] and of the statements the
    specification makes about it.

    Numbers.  The kernel computes on C++ [double]s.  The embedding works in
    exact arithmetic: a [double] is a rational number [Q], compared with
    [==].  Rounding, overflow, infinities and NaN are outside the model; a
    statement "within numerical tolerance" is proved as an exact equation.

    Arrays.  The member tables ([int_wts_], [shape_fcn_vals_],
    [shape_fcn_deriv_]) are flat arrays and are lists read with [nth], with
    the index arithmetic of the source.  The template parameters [ViewT] are
    two-index accessors [v(n, k)] and are functions [nat -> nat -> Q]; an
    assignment [v(n, k) = x] is the pointwise update [set2].

    Failure.  [Invert3x3] lives in nimble_utils.h, which is not among the
    sources; it is modelled from the specification as a function that
    returns the error [DegenerateGeometry].  The element operations contain
    no handler, so they run in the error monad [result]: the first failing
    inversion ends the operation. *)

From Stdlib Require Import QArith Qabs Qminmax List Arith PeanoNat Lia Lqa Bool.
Import ListNotations.

Open Scope Q_scope.

(** ** The error monad *)

Inductive ElementError : Type :=
| DegenerateGeometry
| InvalidInputShape.

Inductive result (A : Type) : Type :=
| Ok (a : A)
| Err (e : ElementError).

Arguments Ok {A} a.
Arguments Err {A} e.

Definition bind {A B : Type} (r : result A) (k : A -> result B) : result B :=
  match r with
  | Ok a => k a
  | Err e => Err e
  end.

Declare Scope result_scope.
Delimit Scope result_scope with result.
Notation "x <- e ;; k" := (bind e (fun x => k))
  (at level 61, e at next level, right associativity) : result_scope.
Notation "' p <- e ;; k" := (bind e (fun x => match x with p => k end))
  (at level 61, p pattern, e at next level, right associativity) : result_scope.
Open Scope result_scope.

(** ** Loops

    [for (int i = 0; i < n; i++) body] over a state [S]. *)

Definition for_ {S : Type} (n : nat) (body : nat -> S -> S) (s : S) : S :=
  fold_left (fun acc i => body i acc) (seq 0 n) s.

Definition forM_list {S : Type} (l : list nat) (body : nat -> S -> result S)
  (s : result S) : result S :=
  fold_left (fun acc i => bind acc (body i)) l s.

Definition forM {S : Type} (n : nat) (body : nat -> S -> result S) (s : S)
  : result S :=
  forM_list (seq 0 n) body (Ok s).

(** ** Views and local arrays *)

Definition View1 : Type := nat -> Q.
Definition View2 : Type := nat -> nat -> Q.

Definition set1 (v : View1) (i : nat) (x : Q) : View1 :=
  fun i' => if Nat.eqb i' i then x else v i'.

Definition set2 (v : View2) (i j : nat) (x : Q) : View2 :=
  fun i' j' => if Nat.eqb i' i && Nat.eqb j' j then x else v i' j'.

Definition zeros1 : View1 := fun _ => 0.
Definition zeros2 : View2 := fun _ _ => 0.

(** [v[i] = x] on a [std::vector<double>]; every index the kernel uses is
    in range, and an index out of range leaves the model's vector as it
    is. *)
Fixpoint upd (v : list Q) (i : nat) (x : Q) : list Q :=
  match v, i with
  | [], _ => []
  | _ :: t, O => x :: t
  | h :: t, S i' => h :: upd t i' x
  end.

(** [Σ_{i < n} f i], accumulated left to right from [0.0]. *)
Definition sumQ (n : nat) (f : nat -> Q) : Q :=
  for_ n (fun i acc => acc + f i) 0.

(** ** 3x3 matrices: [double a[][3]] *)

Record Mat3 : Type := mkMat3 {
  m00 : Q; m01 : Q; m02 : Q;
  m10 : Q; m11 : Q; m12 : Q;
  m20 : Q; m21 : Q; m22 : Q
}.

(** [{{0.0, 0.0, 0.0}, {0.0, 0.0, 0.0}, {0.0, 0.0, 0.0}}] *)
Definition zero3 : Mat3 := mkMat3 0 0 0 0 0 0 0 0 0.

Definition det3 (m : Mat3) : Q :=
  m00 m * (m11 m * m22 m - m12 m * m21 m)
  - m01 m * (m10 m * m22 m - m12 m * m20 m)
  + m02 m * (m10 m * m21 m - m11 m * m20 m).

Definition adjugate_over (m : Mat3) (det : Q) : Mat3 :=
  {| m00 := (m11 m * m22 m - m12 m * m21 m) / det;
     m01 := (m02 m * m21 m - m01 m * m22 m) / det;
     m02 := (m01 m * m12 m - m02 m * m11 m) / det;
     m10 := (m12 m * m20 m - m10 m * m22 m) / det;
     m11 := (m00 m * m22 m - m02 m * m20 m) / det;
     m12 := (m02 m * m10 m - m00 m * m12 m) / det;
     m20 := (m10 m * m21 m - m11 m * m20 m) / det;
     m21 := (m01 m * m20 m - m00 m * m21 m) / det;
     m22 := (m00 m * m11 m - m01 m * m10 m) / det |}.

(** Modelled from the spec: [Invert3x3] of nimble_utils.h, which the
    sources do not contain.  Section 4.3: the determinant by cofactor
    expansion, the inverse as the adjugate divided by the determinant, and
    the [DegenerateGeometry] condition when the determinant's magnitude is
    at or below a small threshold.  The threshold itself is not given; it
    is the parameter [tol].  The call sites read
    [jac_det = Invert3x3(a, a_inv)]: the inverse is an output argument and
    the determinant is the return value. *)
Definition Invert3x3 (tol : Q) (mat : Mat3) : result (Mat3 * Q) :=
  let det := det3 mat in
  if Qle_bool (Qabs det) tol then Err DegenerateGeometry
  else Ok (adjugate_over mat det, det).

(** ** The element *)

Definition dim_ : nat := 3.
Definition num_nodes_ : nat := 8.
Definition num_int_pts_ : nat := 8.

(** [Element]'s engineering component order. *)
Definition K_S_XX_ : nat := 0.
Definition K_S_YY_ : nat := 1.
Definition K_S_ZZ_ : nat := 2.
Definition K_S_XY_ : nat := 3.
Definition K_S_YZ_ : nat := 4.
Definition K_S_ZX_ : nat := 5.
Definition K_S_YX_ : nat := 3.
Definition K_S_ZY_ : nat := 4.
Definition K_S_XZ_ : nat := 5.

Definition K_F_XX_ : nat := 0.
Definition K_F_YY_ : nat := 1.
Definition K_F_ZZ_ : nat := 2.
Definition K_F_XY_ : nat := 3.
Definition K_F_YZ_ : nat := 4.
Definition K_F_ZX_ : nat := 5.
Definition K_F_YX_ : nat := 6.
Definition K_F_ZY_ : nat := 7.
Definition K_F_XZ_ : nat := 8.

(** The private members of [HexElement]. *)
Record HexElement : Type := mkHexElement {
  int_pts_ : list Q;
  int_wts_ : list Q;
  shape_fcn_vals_ : list Q;
  shape_fcn_deriv_ : list Q
}.

Definition Dim (this : HexElement) : nat := dim_.
Definition NumNodesPerElement (this : HexElement) : nat := num_nodes_.
Definition NumIntegrationPointsPerElement (this : HexElement) : nat :=
  num_int_pts_.

(** Array reads [tbl[i]].  The constructor fills the tables to their full
    length, so every index the kernel uses is in range there; a read past
    the end of a shorter list gives [0]. *)
Definition rd (tbl : list Q) (i : nat) : Q := nth i tbl 0.

(** The statements [a[r][c] += x_r * sfd_c] of every node loop. *)
Definition add_outer (a : Mat3) (c1 c2 c3 sfd1 sfd2 sfd3 : Q) : Mat3 :=
  {| m00 := m00 a + c1 * sfd1;
     m01 := m01 a + c1 * sfd2;
     m02 := m02 a + c1 * sfd3;
     m10 := m10 a + c2 * sfd1;
     m11 := m11 a + c2 * sfd2;
     m12 := m12 a + c2 * sfd3;
     m20 := m20 a + c3 * sfd1;
     m21 := m21 a + c3 * sfd2;
     m22 := m22 a + c3 * sfd3 |}.

Section Kernel.

Variable tol : Q.
Variable this : HexElement.

(** The node loop that builds [a] at one integration point from the
    coordinates [x(n, k)]:
    [a = Σ_n x_n ⊗ ∂N_n/∂ξ], lines 280-296, 364-380 and 566-582. *)
Definition jacobian_at (x : View2) (int_pt : nat) : Mat3 :=
  for_ num_nodes_
    (fun n a =>
       let c1 := x n 0%nat in
       let c2 := x n 1%nat in
       let c3 := x n 2%nat in
       let sfd1 := rd (shape_fcn_deriv_ this) (24 * int_pt + dim_ * n) in
       let sfd2 := rd (shape_fcn_deriv_ this) (24 * int_pt + dim_ * n + 1) in
       let sfd3 := rd (shape_fcn_deriv_ this) (24 * int_pt + dim_ * n + 2) in
       add_outer a c1 c2 c3 sfd1 sfd2 sfd3)
    zero3.

(** [cc = node_reference_coords(n, k) + node_displacements(n, k)] *)
Definition current (node_reference_coords node_displacements : View2)
  : View2 :=
  fun n k => node_reference_coords n k + node_displacements n k.

(** *** [ComputeConsistentMass_impl], lines 266-309 *)
Definition ComputeConsistentMass_impl (density : Q)
  (node_reference_coords : View2) (consistent_mass_matrix : View2)
  : result View2 :=
  jac_det <-
    forM num_int_pts_
      (fun int_pt (jac_det : View1) =>
         let a := jacobian_at node_reference_coords int_pt in
         '(a_inv, det) <- Invert3x3 tol a ;;
         Ok (set1 jac_det int_pt det))
      zeros1 ;;
  Ok (for_ num_nodes_
        (fun i m =>
           for_ num_nodes_
             (fun j m =>
                let m := set2 m i j 0 in
                for_ num_int_pts_
                  (fun int_pt m =>
                     set2 m i j
                       (m i j +
                        rd (int_wts_ this) int_pt * density *
                        rd (shape_fcn_vals_ this) (int_pt * num_nodes_ + i) *
                        rd (shape_fcn_vals_ this) (int_pt * num_nodes_ + j) *
                        jac_det int_pt))
                  m)
             m)
        consistent_mass_matrix).

(** *** [ComputeVolumeAverageQuantities_impl], lines 343-392

    [vol_ave] is the [std::vector<double>(num_quantities, 0)]; [volume] is
    the reference argument, returned with the output view.  The final
    division is the division of [Q] (the source divides [double]s, so a
    zero [volume] gives infinities or NaN there). *)
Definition ComputeVolumeAverageQuantities_impl
  (node_reference_coords node_displacements : View2)
  (int_pt_quantities : View2) (vol_ave_quantity : View1)
  (num_quantities : nat) : result (View1 * Q) :=
  let vol_ave := repeat 0 num_quantities in
  let volume := 0 in
  '(volume, vol_ave) <-
    forM num_int_pts_
      (fun int_pt '(volume, vol_ave) =>
         let a :=
           jacobian_at (current node_reference_coords node_displacements)
             int_pt in
         '(a_inv, jac_det) <- Invert3x3 tol a ;;
         let volume := volume + jac_det in
         Ok (volume,
             for_ num_quantities
               (fun i vol_ave =>
                  upd vol_ave i
                    (rd vol_ave i +
                     int_pt_quantities int_pt i *
                     rd (int_wts_ this) int_pt * jac_det))
               vol_ave))
      (volume, vol_ave) ;;
  let '(vol_ave, out) :=
    for_ num_quantities
      (fun i '(vol_ave, out) =>
         let vol_ave := upd vol_ave i (rd vol_ave i / volume) in
         (vol_ave, set1 out i (rd vol_ave i)))
      (vol_ave, vol_ave_quantity) in
  Ok (out, volume).

(** *** [ComputeDeformationGradients_impl], lines 430-502 *)

(** [def_grad[j][k] = a[j][0]*b_inv[0][k] + a[j][1]*b_inv[1][k]
                      + a[j][2]*b_inv[2][k]], lines 486-490. *)
Definition mul3 (a b_inv : Mat3) : Mat3 :=
  {| m00 := m00 a * m00 b_inv + m01 a * m10 b_inv + m02 a * m20 b_inv;
     m01 := m00 a * m01 b_inv + m01 a * m11 b_inv + m02 a * m21 b_inv;
     m02 := m00 a * m02 b_inv + m01 a * m12 b_inv + m02 a * m22 b_inv;
     m10 := m10 a * m00 b_inv + m11 a * m10 b_inv + m12 a * m20 b_inv;
     m11 := m10 a * m01 b_inv + m11 a * m11 b_inv + m12 a * m21 b_inv;
     m12 := m10 a * m02 b_inv + m11 a * m12 b_inv + m12 a * m22 b_inv;
     m20 := m20 a * m00 b_inv + m21 a * m10 b_inv + m22 a * m20 b_inv;
     m21 := m20 a * m01 b_inv + m21 a * m11 b_inv + m22 a * m21 b_inv;
     m22 := m20 a * m02 b_inv + m21 a * m12 b_inv + m22 a * m22 b_inv |}.

(** The node loop of lines 450-482: [a] from the current and [b] from the
    reference coordinates, in one pass. *)
Definition jacobians_ab (node_reference_coords node_displacements : View2)
  (int_pt : nat) : Mat3 * Mat3 :=
  for_ 8
    (fun j '(a, b) =>
       let rc1 := node_reference_coords j 0%nat in
       let rc2 := node_reference_coords j 1%nat in
       let rc3 := node_reference_coords j 2%nat in
       let cc1 := node_reference_coords j 0%nat + node_displacements j 0%nat in
       let cc2 := node_reference_coords j 1%nat + node_displacements j 1%nat in
       let cc3 := node_reference_coords j 2%nat + node_displacements j 2%nat in
       let sfd1 := rd (shape_fcn_deriv_ this) (24 * int_pt + 3 * j) in
       let sfd2 := rd (shape_fcn_deriv_ this) (24 * int_pt + 3 * j + 1) in
       let sfd3 := rd (shape_fcn_deriv_ this) (24 * int_pt + 3 * j + 2) in
       (add_outer a cc1 cc2 cc3 sfd1 sfd2 sfd3,
        add_outer b rc1 rc2 rc3 sfd1 sfd2 sfd3))
    (zero3, zero3).

(** The nine assignments of lines 492-500. *)
Definition store_def_grad (deformation_gradients : View2) (int_pt : nat)
  (def_grad : Mat3) : View2 :=
  let d := set2 deformation_gradients int_pt K_F_XX_ (m00 def_grad) in
  let d := set2 d int_pt K_F_XY_ (m01 def_grad) in
  let d := set2 d int_pt K_F_XZ_ (m02 def_grad) in
  let d := set2 d int_pt K_F_YX_ (m10 def_grad) in
  let d := set2 d int_pt K_F_YY_ (m11 def_grad) in
  let d := set2 d int_pt K_F_YZ_ (m12 def_grad) in
  let d := set2 d int_pt K_F_ZX_ (m20 def_grad) in
  let d := set2 d int_pt K_F_ZY_ (m21 def_grad) in
  set2 d int_pt K_F_ZZ_ (m22 def_grad).

Definition ComputeDeformationGradients_impl
  (node_reference_coords node_displacements : View2)
  (deformation_gradients : View2) : result View2 :=
  forM 8
    (fun int_pt deformation_gradients =>
       let '(a, b) :=
         jacobians_ab node_reference_coords node_displacements int_pt in
       '(b_inv, _) <- Invert3x3 tol b ;;
       let def_grad := mul3 a b_inv in
       Ok (store_def_grad deformation_gradients int_pt def_grad))
    deformation_gradients.

(** *** [ComputeNodalForces_impl], lines 540-625

    [dim_nodes = dim_ * num_nodes_ = 24], so the node loop of lines
    566-582 is [jacobian_at] on the current coordinates. *)
Definition dim_nodes : nat := dim_ * num_nodes_.

(** The body of the loop over [node], lines 586-617. *)
Definition force_step (int_pt_stresses : View2) (int_pt : nat)
  (a_inv : Mat3) (jac_det : Q) (node : nat) (force : View2) : View2 :=
  let s0 := rd (shape_fcn_deriv_ this) (int_pt * dim_nodes + dim_ * node) in
  let s1 :=
    rd (shape_fcn_deriv_ this) (int_pt * dim_nodes + dim_ * node + 1) in
  let s2 :=
    rd (shape_fcn_deriv_ this) (int_pt * dim_nodes + dim_ * node + 2) in
  let dN_dx1 := s0 * m00 a_inv + s1 * m10 a_inv + s2 * m20 a_inv in
  let dN_dx2 := s0 * m01 a_inv + s1 * m11 a_inv + s2 * m21 a_inv in
  let dN_dx3 := s0 * m02 a_inv + s1 * m12 a_inv + s2 * m22 a_inv in
  let f1 :=
    dN_dx1 * int_pt_stresses int_pt K_S_XX_ +
    dN_dx2 * int_pt_stresses int_pt K_S_YX_ +
    dN_dx3 * int_pt_stresses int_pt K_S_ZX_ in
  let f2 :=
    dN_dx1 * int_pt_stresses int_pt K_S_XY_ +
    dN_dx2 * int_pt_stresses int_pt K_S_YY_ +
    dN_dx3 * int_pt_stresses int_pt K_S_ZY_ in
  let f3 :=
    dN_dx1 * int_pt_stresses int_pt K_S_XZ_ +
    dN_dx2 * int_pt_stresses int_pt K_S_YZ_ +
    dN_dx3 * int_pt_stresses int_pt K_S_ZZ_ in
  let f1 := f1 * (jac_det * rd (int_wts_ this) int_pt) in
  let f2 := f2 * (jac_det * rd (int_wts_ this) int_pt) in
  let f3 := f3 * (jac_det * rd (int_wts_ this) int_pt) in
  let force := set2 force node 0 (force node 0%nat - f1) in
  let force := set2 force node 1 (force node 1%nat - f2) in
  set2 force node 2 (force node 2%nat - f3).

(** The final loop, lines 620-624. *)
Definition store_forces (force node_forces : View2) : View2 :=
  for_ num_nodes_
    (fun node node_forces =>
       let nf := set2 node_forces node 0 (force node 0%nat) in
       let nf := set2 nf node 1 (force node 1%nat) in
       set2 nf node 2 (force node 2%nat))
    node_forces.

Definition ComputeNodalForces_impl
  (node_reference_coords node_displacements : View2)
  (int_pt_stresses : View2) (node_forces : View2) : result View2 :=
  force <-
    forM num_int_pts_
      (fun int_pt force =>
         let a :=
           jacobian_at (current node_reference_coords node_displacements)
             int_pt in
         '(a_inv, jac_det) <- Invert3x3 tol a ;;
         Ok (for_ num_nodes_
               (force_step int_pt_stresses int_pt a_inv jac_det) force))
      zeros2 ;;
  Ok (store_forces force node_forces).

(** The override of lines 645-653 forwards to the implementation. *)
Definition ComputeNodalForces
  (node_reference_coords node_displacements : View2)
  (int_pt_stresses : View2) (node_forces : View2) : result View2 :=
  ComputeNodalForces_impl node_reference_coords node_displacements
    int_pt_stresses node_forces.

(** *** [ComputeLumpedMass]

    Modelled from the spec: the body of [HexElement::ComputeLumpedMass],
    which the header only declares (line 318).  Section 4.4: at every
    integration point the Jacobian of the reference configuration is built
    and inverted for its determinant, and
    [weight * density * shapeValue_i * determinant] is accumulated into the
    mass of node [i], for every node. *)
Definition ComputeLumpedMass (density : Q) (node_reference_coords : View2)
  (lumped_mass : View1) : result View1 :=
  forM num_int_pts_
    (fun int_pt lumped_mass =>
       let a := jacobian_at node_reference_coords int_pt in
       '(a_inv, jac_det) <- Invert3x3 tol a ;;
       Ok (for_ num_nodes_
             (fun n lumped_mass =>
                set1 lumped_mass n
                  (lumped_mass n +
                   rd (int_wts_ this) int_pt * density *
                   rd (shape_fcn_vals_ this) (int_pt * num_nodes_ + n) *
                   jac_det))
             lumped_mass))
    (for_ num_nodes_ (fun n lumped_mass => set1 lumped_mass n 0) lumped_mass).

(** *** [ComputeTangent]

    Modelled from the spec: the body of [HexElement::ComputeTangent], which
    the header only declares (line 537).  Section 4.5: it reuses the
    Jacobian machinery of the nodal-force integration and integrates the
    material tangent instead of the stress.  The integrand is not given;
    the contribution of one integration point to the element tangent is
    the parameter [tangent_step].  Both tangents are flat arrays. *)
Variable tangent_step : nat -> Mat3 -> Q -> View1 -> View1 -> View1.

Definition ComputeTangent (node_current_coords : View2)
  (material_tangent element_tangent : View1) : result View1 :=
  forM num_int_pts_
    (fun int_pt element_tangent =>
       let a := jacobian_at node_current_coords int_pt in
       '(a_inv, jac_det) <- Invert3x3 tol a ;;
       Ok (tangent_step int_pt a_inv jac_det material_tangent
             element_tangent))
    element_tangent.

(** The quadrature sum [Σ_pt weight_pt * det J_pt] of the isoparametric
    map with node coordinates [x]: the integrated volume of section 4.4. *)
Definition element_volume (x : View2) : Q :=
  sumQ num_int_pts_
    (fun int_pt => rd (int_wts_ this) int_pt * det3 (jacobian_at x int_pt)).

(** Every integration-point Jacobian of [x] passes the inversion. *)
Definition nondegenerate (x : View2) : Prop :=
  forall int_pt, (int_pt < num_int_pts_)%nat ->
    tol < Qabs (det3 (jacobian_at x int_pt)).

End Kernel.

(** ** Construction

    Modelled from the spec: the constructor [HexElement::HexElement],
    [ShapeFunctionValues] and [ShapeFunctionDerivatives], which the header
    only declares.  Section 4.2: the 2x2x2 Gauss rule, eight points at
    [±g] in each natural coordinate with unit weights, the standard
    trilinear basis [N_i = (1 ± ξ)(1 ± η)(1 ± ζ) / 8], and its derivatives
    stored integration-point-major, node-major, natural-coordinate-minor.
    The abscissa [g] stands for the constant [1/sqrt 3], which the code can
    only hold as a [double]; it is a parameter.  The nodes, and the points,
    are taken in the usual order of the hexahedron. *)
Definition corner_signs : list (Q * Q * Q) :=
  [ (-1, -1, -1); (1, -1, -1); (1, 1, -1); (-1, 1, -1);
    (-1, -1, 1); (1, -1, 1); (1, 1, 1); (-1, 1, 1) ].

Definition ShapeFunctionValues (natural_coords : Q * Q * Q) : list Q :=
  let '(r, s, t) := natural_coords in
  map (fun '(a, b, c) =>
         (1 # 8) * (1 + a * r) * (1 + b * s) * (1 + c * t))
      corner_signs.

Definition ShapeFunctionDerivatives (natural_coords : Q * Q * Q) : list Q :=
  let '(r, s, t) := natural_coords in
  flat_map (fun '(a, b, c) =>
              [ (1 # 8) * a * (1 + b * s) * (1 + c * t);
                (1 # 8) * (1 + a * r) * b * (1 + c * t);
                (1 # 8) * (1 + a * r) * (1 + b * s) * c ])
           corner_signs.

Definition gauss_points (g : Q) : list (Q * Q * Q) :=
  map (fun '(a, b, c) => (a * g, b * g, c * g)) corner_signs.

Definition HexElement_new (g : Q) : HexElement :=
  {| int_pts_ := flat_map (fun '(r, s, t) => [r; s; t]) (gauss_points g);
     int_wts_ := repeat 1 num_int_pts_;
     shape_fcn_vals_ := flat_map ShapeFunctionValues (gauss_points g);
     shape_fcn_deriv_ := flat_map ShapeFunctionDerivatives (gauss_points g) |}.

(** ** Auxiliary definitions for the statements *)

(** The summand of the mass matrix, line 304-305, and the loops of lines
    300-308 for a given table of determinants. *)
Definition mass_term (this : HexElement) (density : Q) (jac_det : View1)
  (i j int_pt : nat) : Q :=
  rd (int_wts_ this) int_pt * density *
  rd (shape_fcn_vals_ this) (int_pt * num_nodes_ + i) *
  rd (shape_fcn_vals_ this) (int_pt * num_nodes_ + j) *
  jac_det int_pt.

Definition mass_loops (this : HexElement) (density : Q) (jac_det : View1)
  (m : View2) : View2 :=
  for_ num_nodes_
    (fun i m =>
       for_ num_nodes_
         (fun j m =>
            let m := set2 m i j 0 in
            for_ num_int_pts_
              (fun int_pt m =>
                 set2 m i j
                   (m i j + mass_term this density jac_det i j int_pt))
              m)
         m)
    m.

(** The accumulation of lines 382-385 once the inversion has succeeded. *)
Definition vol_step (this : HexElement) (x q : View2) (nq : nat)
  (int_pt : nat) (st : Q * list Q) : Q * list Q :=
  let '(volume, vol_ave) := st in
  (volume + det3 (jacobian_at this x int_pt),
   for_ nq
     (fun i v =>
        upd v i
          (rd v i +
           q int_pt i * rd (int_wts_ this) int_pt *
           det3 (jacobian_at this x int_pt)))
     vol_ave).

(** The node loop of [ComputeLumpedMass] once the inversion has
    succeeded. *)
Definition lump_step (this : HexElement) (density : Q) (x : View2)
  (int_pt : nat) (lumped_mass : View1) : View1 :=
  for_ num_nodes_
    (fun n lm =>
       set1 lm n
         (lm n +
          rd (int_wts_ this) int_pt * density *
          rd (shape_fcn_vals_ this) (int_pt * num_nodes_ + n) *
          det3 (jacobian_at this x int_pt)))
    lumped_mass.

(** Minimum and maximum of [f 0 .. f (n-1)], for [n >= 1]. *)
Definition min_over (n : nat) (f : nat -> Q) : Q :=
  for_ n (fun i acc => Qmin acc (f i)) (f 0%nat).

Definition max_over (n : nat) (f : nat -> Q) : Q :=
  for_ n (fun i acc => Qmax acc (f i)) (f 0%nat).

(** Componentwise equality of matrices, and [s * m]. *)
Definition Meq (a b : Mat3) : Prop :=
  m00 a == m00 b /\ m01 a == m01 b /\ m02 a == m02 b /\
  m10 a == m10 b /\ m11 a == m11 b /\ m12 a == m12 b /\
  m20 a == m20 b /\ m21 a == m21 b /\ m22 a == m22 b.

Definition scale3 (s : Q) (m : Mat3) : Mat3 :=
  mkMat3 (s * m00 m) (s * m01 m) (s * m02 m)
         (s * m10 m) (s * m11 m) (s * m12 m)
         (s * m20 m) (s * m21 m) (s * m22 m).

(** The entry of [def_grad] stored in slot [k] of the 9-component order,
    lines 492-500. *)
Definition full_component (def_grad : Mat3) (k : nat) : Q :=
  match k with
  | 0%nat => m00 def_grad
  | 1%nat => m11 def_grad
  | 2%nat => m22 def_grad
  | 3%nat => m01 def_grad
  | 4%nat => m12 def_grad
  | 5%nat => m20 def_grad
  | 6%nat => m10 def_grad
  | 7%nat => m21 def_grad
  | 8%nat => m02 def_grad
  | _ => 0
  end.

(** The identity tensor in the 9-component order: one at XX, YY and ZZ. *)
Definition identity_full (k : nat) : Q :=
  if Nat.eqb k K_F_XX_ || Nat.eqb k K_F_YY_ || Nat.eqb k K_F_ZZ_
  then 1 else 0.

(** ** Definitions for the further properties *)

(** The amount subtracted from [force[node][k]] at one integration point,
    lines 587-616: [f_k * jac_det * int_wts_[int_pt]]. *)
Definition force_term (this : HexElement) (int_pt_stresses : View2)
  (int_pt : nat) (a_inv : Mat3) (jac_det : Q) (node k : nat) : Q :=
  let s0 := rd (shape_fcn_deriv_ this) (int_pt * dim_nodes + dim_ * node) in
  let s1 :=
    rd (shape_fcn_deriv_ this) (int_pt * dim_nodes + dim_ * node + 1) in
  let s2 :=
    rd (shape_fcn_deriv_ this) (int_pt * dim_nodes + dim_ * node + 2) in
  let dN_dx1 := s0 * m00 a_inv + s1 * m10 a_inv + s2 * m20 a_inv in
  let dN_dx2 := s0 * m01 a_inv + s1 * m11 a_inv + s2 * m21 a_inv in
  let dN_dx3 := s0 * m02 a_inv + s1 * m12 a_inv + s2 * m22 a_inv in
  match k with
  | 0%nat =>
      (dN_dx1 * int_pt_stresses int_pt K_S_XX_ +
       dN_dx2 * int_pt_stresses int_pt K_S_YX_ +
       dN_dx3 * int_pt_stresses int_pt K_S_ZX_) *
      (jac_det * rd (int_wts_ this) int_pt)
  | 1%nat =>
      (dN_dx1 * int_pt_stresses int_pt K_S_XY_ +
       dN_dx2 * int_pt_stresses int_pt K_S_YY_ +
       dN_dx3 * int_pt_stresses int_pt K_S_ZY_) *
      (jac_det * rd (int_wts_ this) int_pt)
  | 2%nat =>
      (dN_dx1 * int_pt_stresses int_pt K_S_XZ_ +
       dN_dx2 * int_pt_stresses int_pt K_S_YZ_ +
       dN_dx3 * int_pt_stresses int_pt K_S_ZZ_) *
      (jac_det * rd (int_wts_ this) int_pt)
  | _ => 0
  end.

(** The local array [force] after the first [n] integration points of
    lines 562-618, every inversion having succeeded. *)
Definition force_loop (this : HexElement) (x int_pt_stresses : View2)
  (n : nat) : View2 :=
  for_ n
    (fun int_pt force =>
       let a := jacobian_at this x int_pt in
       for_ num_nodes_
         (force_step this int_pt_stresses int_pt
            (adjugate_over a (det3 a)) (det3 a))
         force)
    zeros2.

(** The coordinates [A x_n + c] of an affinely mapped element. *)
Definition affine_map (A : Mat3) (c : View1) (x : View2) : View2 :=
  fun n k =>
    match k with
    | 0%nat =>
        m00 A * x n 0%nat + m01 A * x n 1%nat + m02 A * x n 2%nat + c 0%nat
    | 1%nat =>
        m10 A * x n 0%nat + m11 A * x n 1%nat + m12 A * x n 2%nat + c 1%nat
    | 2%nat =>
        m20 A * x n 0%nat + m21 A * x n 1%nat + m22 A * x n 2%nat + c 2%nat
    | _ => 0
    end.

(** Two conditions on the tables of an element: at every integration
    point the shape values add up to one, and the shape derivatives in
    each natural direction add up to zero. *)
Definition partition_of_unity (this : HexElement) : Prop :=
  forall int_pt, (int_pt < num_int_pts_)%nat ->
    sumQ num_nodes_
      (fun i => rd (shape_fcn_vals_ this) (int_pt * num_nodes_ + i)) == 1.

Definition derivatives_sum_zero (this : HexElement) : Prop :=
  forall int_pt c, (int_pt < num_int_pts_)%nat -> (c < 3)%nat ->
    sumQ num_nodes_
      (fun n => rd (shape_fcn_deriv_ this) (24 * int_pt + dim_ * n + c)) == 0.

(** The 3x3 tensor stored at integration point [int_pt] of a view in the
    9-component order. *)
Definition tensor_at (d : View2) (int_pt : nat) : Mat3 :=
  mkMat3 (d int_pt K_F_XX_) (d int_pt K_F_XY_) (d int_pt K_F_XZ_)
         (d int_pt K_F_YX_) (d int_pt K_F_YY_) (d int_pt K_F_YZ_)
         (d int_pt K_F_ZX_) (d int_pt K_F_ZY_) (d int_pt K_F_ZZ_).

(** [v^T m v] over the first [n] rows and columns. *)
Definition quad_form (n : nat) (m : View2) (v : View1) : Q :=
  sumQ n (fun i => sumQ n (fun j => v i * m i j * v j)).

(** ** Sample data *)

(** A rational close to [1/sqrt 3] ([3 * 15^2 = 675], [26^2 = 676]), and a
    threshold of [1e-12]. *)
Definition sample_abscissa : Q := 15 # 26.
Definition sample_tol : Q := 1 # 1000000000000.
Definition sample_element : HexElement := HexElement_new sample_abscissa.

Definition hex_coords (corners : list (Q * Q * Q)) : View2 :=
  fun n k =>
    let '(a, b, c) := nth n corners (0, 0, 0) in
    match k with
    | 0%nat => a
    | 1%nat => b
    | 2%nat => c
    | _ => 0
    end.

(** The unit cube [0,1]^3, nodes in the order of [corner_signs]. *)
Definition unit_cube : View2 :=
  hex_coords [ (0, 0, 0); (1, 0, 0); (1, 1, 0); (0, 1, 0);
               (0, 0, 1); (1, 0, 1); (1, 1, 1); (0, 1, 1) ].

(** A distorted but valid hexahedron. *)
Definition skew_hex : View2 :=
  hex_coords [ (0, 0, 0); (2, 0, 0); (2 + (1 # 2), 1, 0); (0, 1, 0);
               (0, 0, 1); (2, 0, 1 + (1 # 3)); (2, 1, 1); (0, 1, 1) ].

(** The unit cube pressed flat onto the plane [z = 0]. *)
Definition flat_hex : View2 :=
  hex_coords [ (0, 0, 0); (1, 0, 0); (1, 1, 0); (0, 1, 0);
               (0, 0, 0); (1, 0, 0); (1, 1, 0); (0, 1, 0) ].

(** A displacement field and an integration-point field for the samples. *)
Definition sample_displacements : View2 :=
  fun n k => inject_Z (Z.of_nat (n + k)) / 10.

Definition sample_field : View2 :=
  fun int_pt i => inject_Z (Z.of_nat (int_pt * int_pt + i)) / 7.

Definition dilated (s : Q) (x : View2) : View2 :=
  fun n k => s * x n k - x n k.

(** * Properties *)

(** ** Loops *)

Lemma for_S {S : Type} (n : nat) (body : nat -> S -> S) (s : S) :
  for_ (Datatypes.S n) body s = body n (for_ n body s).
Proof.
  unfold for_. rewrite seq_S, fold_left_app. reflexivity.
Qed.

Lemma for_0 {S : Type} (body : nat -> S -> S) (s : S) : for_ 0 body s = s.
Proof. reflexivity. Qed.

Lemma forM_S {S : Type} (n : nat) (body : nat -> S -> result S) (s : S) :
  forM (Datatypes.S n) body s = bind (forM n body s) (body n).
Proof.
  unfold forM, forM_list. rewrite seq_S, fold_left_app. reflexivity.
Qed.

(** A loop whose every iteration succeeds is the pure loop. *)
Lemma forM_ok {S : Type} (n : nat) (body : nat -> S -> result S)
  (pure : nat -> S -> S) (s : S) :
  (forall i s', (i < n)%nat -> body i s' = Ok (pure i s')) ->
  forM n body s = Ok (for_ n pure s).
Proof.
  induction n as [|n IH]; intros Hb.
  - reflexivity.
  - rewrite forM_S, for_S, IH by (intros; apply Hb; lia).
    simpl. apply Hb. lia.
Qed.

(** A loop whose iterations can only fail with [e] can only fail with [e]. *)
Lemma forM_err_only {S : Type} (n : nat) (body : nat -> S -> result S)
  (s : S) (e : ElementError) :
  (forall i s' e', body i s' = Err e' -> e' = e) ->
  forall e', forM n body s = Err e' -> e' = e.
Proof.
  intros Hb. induction n as [|n IH]; intros e' H.
  - discriminate.
  - rewrite forM_S in H. destruct (forM n body s) as [s'|e0]; simpl in H.
    + eauto.
    + injection H as <-. auto.
Qed.

(** An iteration that fails on every state makes the loop fail. *)
Lemma forM_err {S : Type} (n : nat) (body : nat -> S -> result S) (s : S)
  (e : ElementError) (i : nat) :
  (i < n)%nat ->
  (forall s', body i s' = Err e) ->
  (forall j s' e', body j s' = Err e' -> e' = e) ->
  forM n body s = Err e.
Proof.
  intros Hi Hfail Honly. induction n as [|n IH]; [lia|].
  rewrite forM_S.
  destruct (forM n body s) as [s'|e0] eqn:E; simpl.
  - destruct (Nat.eq_dec i n) as [->|Hne]; [apply Hfail|].
    assert (Hlt : (i < n)%nat) by lia.
    specialize (IH Hlt). discriminate.
  - f_equal. eapply forM_err_only; eauto.
Qed.

(** ** Views *)

Lemma set1_get (v : View1) (i i' : nat) (x : Q) :
  set1 v i x i' = if Nat.eqb i' i then x else v i'.
Proof. reflexivity. Qed.

Lemma set2_get (v : View2) (i j i' j' : nat) (x : Q) :
  set2 v i j x i' j' = if Nat.eqb i' i && Nat.eqb j' j then x else v i' j'.
Proof. reflexivity. Qed.

(** A loop that assigns [val i s] to cell [i] and leaves the others. *)
Lemma for_set1 (n : nat) (body : nat -> View1 -> View1)
  (val : nat -> View1 -> Q) (v : View1) :
  (forall i s i', body i s i' = if Nat.eqb i' i then val i s else s i') ->
  (forall i s s', s i = s' i -> val i s = val i s') ->
  forall i', for_ n body v i' =
             if Nat.ltb i' n then val i' v else v i'.
Proof.
  intros Hb Hv. induction n as [|n IH]; intros i'.
  - reflexivity.
  - rewrite for_S, Hb.
    destruct (Nat.eqb_spec i' n) as [->|Hne].
    + rewrite (proj2 (Nat.ltb_lt n (S n))) by lia.
      apply Hv. rewrite IH. rewrite (proj2 (Nat.ltb_ge n n)) by lia.
      reflexivity.
    + rewrite IH. destruct (Nat.ltb_spec i' n), (Nat.ltb_spec i' (S n));
        try lia; reflexivity.
Qed.

(** ** The inversion primitive *)

Lemma Invert3x3_ok (tol : Q) (mat : Mat3) :
  tol < Qabs (det3 mat) ->
  Invert3x3 tol mat = Ok (adjugate_over mat (det3 mat), det3 mat).
Proof.
  intros H. unfold Invert3x3.
  destruct (Qle_bool (Qabs (det3 mat)) tol) eqn:E; [|reflexivity].
  apply Qle_bool_iff in E. exfalso. apply (Qlt_not_le _ _ H E).
Qed.

Lemma Invert3x3_err (tol : Q) (mat : Mat3) :
  Qabs (det3 mat) <= tol ->
  Invert3x3 tol mat = Err DegenerateGeometry.
Proof.
  intros H. unfold Invert3x3.
  apply Qle_bool_iff in H. rewrite H. reflexivity.
Qed.

Lemma Invert3x3_err_only (tol : Q) (mat : Mat3) (e : ElementError) :
  Invert3x3 tol mat = Err e -> e = DegenerateGeometry.
Proof.
  unfold Invert3x3.
  destruct (Qle_bool (Qabs (det3 mat)) tol); congruence.
Qed.


(** ** The Jacobian loops *)

(** One loop over two independent accumulators is two loops. *)
Lemma for_pair {A B : Type} (n : nat) (fa : nat -> A -> A)
  (fb : nat -> B -> B) (a : A) (b : B) :
  for_ n (fun i '(x, y) => (fa i x, fb i y)) (a, b) =
  (for_ n fa a, for_ n fb b).
Proof.
  induction n as [|n IH].
  - reflexivity.
  - rewrite !for_S, IH. reflexivity.
Qed.

Lemma jacobians_ab_split (this : HexElement)
  (node_reference_coords node_displacements : View2) (int_pt : nat) :
  jacobians_ab this node_reference_coords node_displacements int_pt =
  (jacobian_at this (current node_reference_coords node_displacements) int_pt,
   jacobian_at this node_reference_coords int_pt).
Proof.
  unfold jacobians_ab, jacobian_at, num_nodes_. apply for_pair.
Qed.

(** ** Failure of the inversion ends every operation *)

Ltac only_degenerate :=
  let H := fresh "H" in
  let E := fresh "E" in
  intros ? ? ? H;
  repeat match type of H with
         | context [let '(_, _) := ?p in _] => is_var p; destruct p
         end;
  match type of H with
  | context [Invert3x3 ?t ?m] =>
      destruct (Invert3x3 t m) as [[? ?]|?] eqn:E; simpl in H;
      [discriminate | injection H as <-; eapply Invert3x3_err_only; eauto]
  end.

Section Degenerate.

Variable tol : Q.
Variable this : HexElement.

Lemma ComputeConsistentMass_impl_degenerate density x m int_pt :
  (int_pt < num_int_pts_)%nat ->
  Qabs (det3 (jacobian_at this x int_pt)) <= tol ->
  ComputeConsistentMass_impl tol this density x m = Err DegenerateGeometry.
Proof.
  intros Hi Hd. unfold ComputeConsistentMass_impl.
  erewrite forM_err with (i := int_pt) (e := DegenerateGeometry);
    [reflexivity | exact Hi | | only_degenerate].
  intros s'. rewrite Invert3x3_err by exact Hd. reflexivity.
Qed.

Lemma ComputeLumpedMass_degenerate density x lm int_pt :
  (int_pt < num_int_pts_)%nat ->
  Qabs (det3 (jacobian_at this x int_pt)) <= tol ->
  ComputeLumpedMass tol this density x lm = Err DegenerateGeometry.
Proof.
  intros Hi Hd. unfold ComputeLumpedMass.
  erewrite forM_err with (i := int_pt) (e := DegenerateGeometry);
    [reflexivity | exact Hi | | only_degenerate].
  intros s'. rewrite Invert3x3_err by exact Hd. reflexivity.
Qed.

Lemma ComputeTangent_degenerate step x mt et int_pt :
  (int_pt < num_int_pts_)%nat ->
  Qabs (det3 (jacobian_at this x int_pt)) <= tol ->
  ComputeTangent tol this step x mt et = Err DegenerateGeometry.
Proof.
  intros Hi Hd. unfold ComputeTangent.
  erewrite forM_err with (i := int_pt) (e := DegenerateGeometry);
    [reflexivity | exact Hi | | only_degenerate].
  intros s'. rewrite Invert3x3_err by exact Hd. reflexivity.
Qed.

Lemma ComputeDeformationGradients_impl_degenerate x u out int_pt :
  (int_pt < num_int_pts_)%nat ->
  Qabs (det3 (jacobian_at this x int_pt)) <= tol ->
  ComputeDeformationGradients_impl tol this x u out = Err DegenerateGeometry.
Proof.
  intros Hi Hd. unfold ComputeDeformationGradients_impl.
  erewrite forM_err with (i := int_pt) (e := DegenerateGeometry);
    [reflexivity | exact Hi | | ].
  - intros s'. rewrite jacobians_ab_split.
    rewrite Invert3x3_err by exact Hd. reflexivity.
  - intros j s' e'. rewrite jacobians_ab_split. revert j s' e'.
    only_degenerate.
Qed.

Lemma ComputeNodalForces_impl_degenerate x u stress nf int_pt :
  (int_pt < num_int_pts_)%nat ->
  Qabs (det3 (jacobian_at this (current x u) int_pt)) <= tol ->
  ComputeNodalForces_impl tol this x u stress nf = Err DegenerateGeometry.
Proof.
  intros Hi Hd. unfold ComputeNodalForces_impl.
  erewrite forM_err with (i := int_pt) (e := DegenerateGeometry);
    [reflexivity | exact Hi | | only_degenerate].
  intros s'. rewrite Invert3x3_err by exact Hd. reflexivity.
Qed.

Lemma ComputeVolumeAverageQuantities_impl_degenerate x u q out nq int_pt :
  (int_pt < num_int_pts_)%nat ->
  Qabs (det3 (jacobian_at this (current x u) int_pt)) <= tol ->
  ComputeVolumeAverageQuantities_impl tol this x u q out nq =
  Err DegenerateGeometry.
Proof.
  intros Hi Hd. unfold ComputeVolumeAverageQuantities_impl.
  erewrite forM_err with (i := int_pt) (e := DegenerateGeometry);
    [reflexivity | exact Hi | | only_degenerate].
  intros [volume vol_ave]. rewrite Invert3x3_err by exact Hd. reflexivity.
Qed.

End Degenerate.

(** ** Sums *)

Lemma sumQ_S (n : nat) (f : nat -> Q) : sumQ (S n) f = sumQ n f + f n.
Proof. unfold sumQ. rewrite for_S. reflexivity. Qed.

Lemma sumQ_ext (n : nat) (f g : nat -> Q) :
  (forall i, (i < n)%nat -> f i == g i) -> sumQ n f == sumQ n g.
Proof.
  induction n as [|n IH]; intros H.
  - reflexivity.
  - rewrite !sumQ_S, IH, (H n) by (intros; auto with arith). reflexivity.
Qed.

Lemma sumQ_plus (n : nat) (f g : nat -> Q) :
  sumQ n (fun i => f i + g i) == sumQ n f + sumQ n g.
Proof.
  induction n as [|n IH].
  - reflexivity.
  - rewrite !sumQ_S, IH. ring.
Qed.

Lemma sumQ_scal (n : nat) (c : Q) (f : nat -> Q) :
  sumQ n (fun i => c * f i) == c * sumQ n f.
Proof.
  induction n as [|n IH].
  - unfold sumQ. rewrite !for_0. ring.
  - rewrite !sumQ_S, IH. ring.
Qed.

(** ** Loops that fill a view *)

Lemma for_inv {S : Type} (P : S -> Prop) (n : nat) (body : nat -> S -> S)
  (s : S) :
  P s -> (forall i s', (i < n)%nat -> P s' -> P (body i s')) ->
  P (for_ n body s).
Proof.
  intros H0. induction n as [|n IH]; intros Hb.
  - exact H0.
  - rewrite for_S. apply Hb; [lia|]. apply IH. intros; apply Hb; [lia|auto].
Qed.

(** The innermost loop of the mass matrix accumulates into one cell. *)
Lemma for_accum_cell (n : nat) (t : nat -> Q) (i j : nat) (m : View2)
  (i' j' : nat) :
  for_ n (fun pt m' => set2 m' i j (m' i j + t pt)) m i' j' =
  if Nat.eqb i' i && Nat.eqb j' j
  then for_ n (fun pt acc => acc + t pt) (m i j)
  else m i' j'.
Proof.
  induction n as [|n IH].
  - rewrite !for_0. destruct (Nat.eqb_spec i' i), (Nat.eqb_spec j' j);
      subst; reflexivity.
  - rewrite !for_S, set2_get.
    destruct (Nat.eqb i' i && Nat.eqb j' j) eqn:E; [|exact IH].
    f_equal. clear IH E.
    induction n as [|n IH]; [reflexivity|].
    rewrite !for_S, set2_get, !Nat.eqb_refl. simpl. rewrite IH. reflexivity.
Qed.

(** A loop over the columns [j < n] of row [i]. *)
Lemma for_row (n : nat) (val : nat -> Q) (cell : nat -> View2 -> View2)
  (i : nat) (m : View2) :
  (forall j s i' j',
      cell j s i' j' = if Nat.eqb i' i && Nat.eqb j' j then val j
                       else s i' j') ->
  forall i' j',
    for_ n cell m i' j' =
    if Nat.eqb i' i && Nat.ltb j' n then val j' else m i' j'.
Proof.
  intros Hc. induction n as [|n IH]; intros i' j'.
  - rewrite for_0, andb_false_r. reflexivity.
  - rewrite for_S, Hc, IH.
    destruct (Nat.eqb_spec i' i); simpl; [|reflexivity].
    destruct (Nat.eqb_spec j' n), (Nat.ltb_spec j' n),
      (Nat.ltb_spec j' (S n)); subst; try lia; reflexivity.
Qed.

(** A loop over the rows [i < n], each row [w] columns wide. *)
Lemma for_rows (n w : nat) (val : nat -> nat -> Q)
  (row : nat -> View2 -> View2) (m : View2) :
  (forall i s i' j',
      row i s i' j' = if Nat.eqb i' i && Nat.ltb j' w then val i j'
                      else s i' j') ->
  forall i' j',
    for_ n row m i' j' =
    if Nat.ltb i' n && Nat.ltb j' w then val i' j' else m i' j'.
Proof.
  intros Hr. induction n as [|n IH]; intros i' j'.
  - reflexivity.
  - rewrite for_S, Hr, IH.
    destruct (Nat.eqb_spec i' n), (Nat.ltb_spec i' n),
      (Nat.ltb_spec i' (S n)); subst; try lia; simpl;
      reflexivity.
Qed.

(** ** The consistent mass matrix *)

Section ConsistentMass.

Variable this : HexElement.
Variable density : Q.
Variable jac_det : View1.

Lemma mass_loops_get (m : View2) (i j : nat) :
  mass_loops this density jac_det m i j =
  if Nat.ltb i num_nodes_ && Nat.ltb j num_nodes_
  then sumQ num_int_pts_ (mass_term this density jac_det i j)
  else m i j.
Proof.
  unfold mass_loops.
  apply (for_rows num_nodes_ num_nodes_
           (fun i j => sumQ num_int_pts_ (mass_term this density jac_det i j))).
  intros i0 s i' j'.
  apply (for_row num_nodes_
           (fun j => sumQ num_int_pts_ (mass_term this density jac_det i0 j))).
  intros j0 s0 i1 j1. cbv zeta.
  rewrite for_accum_cell, !set2_get, !Nat.eqb_refl.
  destruct (Nat.eqb i1 i0 && Nat.eqb j1 j0); reflexivity.
Qed.

Lemma mass_term_sym (i j int_pt : nat) :
  mass_term this density jac_det i j int_pt ==
  mass_term this density jac_det j i int_pt.
Proof. unfold mass_term. ring. Qed.

End ConsistentMass.

Lemma ComputeConsistentMass_impl_run (tol : Q) (this : HexElement)
  (density : Q) (x m : View2) :
  ComputeConsistentMass_impl tol this density x m =
  (jac_det <-
     forM num_int_pts_
       (fun int_pt (jac_det : View1) =>
          '(a_inv, det) <- Invert3x3 tol (jacobian_at this x int_pt) ;;
          Ok (set1 jac_det int_pt det))
       zeros1 ;;
   Ok (mass_loops this density jac_det m)).
Proof. reflexivity. Qed.

(** Under non-degeneracy an integration-point loop is its pure loop. *)
Lemma forM_invert (tol : Q) (this : HexElement) (x : View2) {S : Type}
  (k : nat -> Mat3 -> Q -> S -> S) (s : S) :
  nondegenerate tol this x ->
  forM num_int_pts_
    (fun int_pt s' =>
       '(a_inv, jac_det) <- Invert3x3 tol (jacobian_at this x int_pt) ;;
       Ok (k int_pt a_inv jac_det s'))
    s =
  Ok (for_ num_int_pts_
        (fun int_pt s' =>
           let a := jacobian_at this x int_pt in
           k int_pt (adjugate_over a (det3 a)) (det3 a) s')
        s).
Proof.
  intros Hnd. apply forM_ok. intros i s' Hi.
  rewrite Invert3x3_ok by (apply Hnd, Hi). reflexivity.
Qed.

(** ** Nodal forces *)

Lemma store_forces_get (force node_forces : View2) (node k : nat) :
  store_forces force node_forces node k =
  if Nat.ltb node num_nodes_ && Nat.ltb k 3 then force node k
  else node_forces node k.
Proof.
  unfold store_forces.
  apply (for_rows num_nodes_ 3 force). clear node k.
  intros i s i' j'. rewrite !set2_get.
  destruct (Nat.eqb_spec i' i) as [->|Hne]; simpl; [|reflexivity].
  destruct j' as [|[|[|j']]]; reflexivity.
Qed.

Lemma ComputeNodalForces_impl_run (tol : Q) (this : HexElement)
  (x u stress nf : View2) :
  nondegenerate tol this (current x u) ->
  ComputeNodalForces_impl tol this x u stress nf =
  Ok (store_forces
        (for_ num_int_pts_
           (fun int_pt force =>
              let a := jacobian_at this (current x u) int_pt in
              for_ num_nodes_
                (force_step this stress int_pt
                   (adjugate_over a (det3 a)) (det3 a))
                force)
           zeros2)
        nf).
Proof.
  intros Hnd. unfold ComputeNodalForces_impl.
  rewrite (forM_invert tol this (current x u)
             (fun int_pt a_inv jac_det force =>
                for_ num_nodes_
                  (force_step this stress int_pt a_inv jac_det) force))
    by exact Hnd.
  reflexivity.
Qed.

(** With no stress at an integration point, a step keeps a zero
    accumulator at zero. *)
Lemma force_step_zero (this : HexElement) (stress : View2) (int_pt : nat)
  (a_inv : Mat3) (jac_det : Q) (node : nat) (force : View2) :
  (forall k, (k < 6)%nat -> stress int_pt k == 0) ->
  (forall n k, force n k == 0) ->
  forall n k, force_step this stress int_pt a_inv jac_det node force n k == 0.
Proof.
  intros Hs Hf n k. unfold force_step. cbv zeta. rewrite !set2_get.
  unfold K_S_XX_, K_S_YY_, K_S_ZZ_, K_S_XY_, K_S_YZ_, K_S_ZX_,
    K_S_YX_, K_S_ZY_, K_S_XZ_.
  pose proof (Hs 0%nat ltac:(lia)) as H0.
  pose proof (Hs 1%nat ltac:(lia)) as H1.
  pose proof (Hs 2%nat ltac:(lia)) as H2.
  pose proof (Hs 3%nat ltac:(lia)) as H3.
  pose proof (Hs 4%nat ltac:(lia)) as H4.
  pose proof (Hs 5%nat ltac:(lia)) as H5.
  rewrite !Nat.eqb_refl. simpl.
  repeat match goal with
         | |- (if ?c then _ else _) == _ => destruct c
         end;
    rewrite ?H0, ?H1, ?H2, ?H3, ?H4, ?H5, ?Hf; try ring.
Qed.

Lemma forces_zero_stress (this : HexElement) (x stress : View2) :
  (forall int_pt k, (int_pt < num_int_pts_)%nat -> (k < 6)%nat ->
                    stress int_pt k == 0) ->
  forall n k,
    for_ num_int_pts_
      (fun int_pt force =>
         let a := jacobian_at this x int_pt in
         for_ num_nodes_
           (force_step this stress int_pt (adjugate_over a (det3 a)) (det3 a))
           force)
      zeros2 n k == 0.
Proof.
  intros Hs.
  apply (for_inv (fun force : View2 => forall n k, force n k == 0)).
  - intros n k. reflexivity.
  - intros int_pt force Hpt Hf. cbv zeta.
    apply (for_inv (fun force : View2 => forall n k, force n k == 0));
      [exact Hf|].
    intros node force' _ Hf'. apply force_step_zero; [|exact Hf'].
    intros k Hk. apply Hs; assumption.
Qed.

(** ** Volume averages *)

Lemma upd_length (v : list Q) (i : nat) (x : Q) :
  length (upd v i x) = length v.
Proof.
  revert i. induction v as [|h t IH]; intros [|i]; simpl; auto.
Qed.

Lemma rd_upd (v : list Q) (i : nat) (x : Q) (i' : nat) :
  rd (upd v i x) i' =
  if Nat.eqb i' i && Nat.ltb i (length v) then x else rd v i'.
Proof.
  unfold rd. revert i i'.
  induction v as [|h t IH]; intros i i'.
  - simpl. rewrite andb_false_r. destruct i; reflexivity.
  - destruct i as [|i], i' as [|i']; simpl; try reflexivity.
    rewrite IH. reflexivity.
Qed.

(** The loop [for i < n: v[i] = val i v[i]]. *)
Lemma for_upd (n : nat) (val : nat -> Q -> Q) (v : list Q) :
  length (for_ n (fun i v' => upd v' i (val i (rd v' i))) v) = length v /\
  forall i',
    rd (for_ n (fun i v' => upd v' i (val i (rd v' i))) v) i' =
    if Nat.ltb i' n && Nat.ltb i' (length v) then val i' (rd v i')
    else rd v i'.
Proof.
  induction n as [|n [IHl IHr]].
  - split; [reflexivity|]. intros i'. reflexivity.
  - rewrite for_S. split.
    + rewrite upd_length. exact IHl.
    + intros i'. rewrite rd_upd, IHl, !IHr.
      destruct (Nat.eqb_spec i' n) as [->|Hne]; simpl.
      * rewrite Nat.ltb_irrefl. simpl.
        rewrite (proj2 (Nat.ltb_lt n (S n))) by lia. simpl.
        destruct (Nat.ltb n (length v)) eqn:E; [reflexivity|].
        unfold rd at 2. reflexivity.
      * destruct (Nat.ltb_spec i' n), (Nat.ltb_spec i' (S n)); try lia;
          reflexivity.
Qed.

Section VolumeAverage.

Variable this : HexElement.
Variable x : View2.
Variable q : View2.
Variable nq : nat.


Lemma vol_loop (n : nat) :
  let st := for_ n (vol_step this x q nq) (0, repeat 0 nq) in
  fst st = sumQ n (fun int_pt => det3 (jacobian_at this x int_pt)) /\
  length (snd st) = nq /\
  forall i, (i < nq)%nat ->
    rd (snd st) i =
    sumQ n
      (fun int_pt =>
         q int_pt i * rd (int_wts_ this) int_pt *
         det3 (jacobian_at this x int_pt)).
Proof.
  induction n as [|n IH]; cbv zeta in *.
  - rewrite for_0. simpl. split; [reflexivity|]. split; [apply repeat_length|].
    intros i _. unfold rd. apply nth_repeat.
  - rewrite for_S.
    destruct (for_ n (vol_step this x q nq) (0, repeat 0 nq)) as [volume v].
    simpl in IH. destruct IH as (Hv & Hl & Hr). unfold vol_step.
    destruct (for_upd nq
                (fun i old =>
                   old +
                   q n i * rd (int_wts_ this) n *
                   det3 (jacobian_at this x n)) v)
      as [Hl' Hr'].
    simpl. split; [|split].
    + rewrite sumQ_S, Hv. reflexivity.
    + rewrite Hl'. exact Hl.
    + intros i Hi. rewrite Hr', Hl, sumQ_S, (Hr i Hi).
      rewrite (proj2 (Nat.ltb_lt i nq) Hi). reflexivity.
Qed.

(** The closing loop of lines 388-391. *)
Lemma vol_finish (volume : Q) (v : list Q) (out : View1) (n : nat) :
  (n <= length v)%nat ->
  let st :=
    for_ n
      (fun i '(vol_ave, out') =>
         let vol_ave' := upd vol_ave i (rd vol_ave i / volume) in
         (vol_ave', set1 out' i (rd vol_ave' i)))
      (v, out) in
  length (fst st) = length v /\
  (forall i, (n <= i)%nat -> rd (fst st) i = rd v i) /\
  forall i, snd st i = if Nat.ltb i n then rd v i / volume else out i.
Proof.
  induction n as [|n IH]; intros Hn; cbv zeta in *.
  - rewrite for_0. simpl. auto.
  - rewrite for_S.
    destruct (for_ n _ (v, out)) as [v' out'].
    simpl in IH. destruct IH as (Hl & Hk & Hout); [lia|]. simpl.
    split; [|split].
    + rewrite upd_length. exact Hl.
    + intros i Hi. rewrite rd_upd.
      destruct (Nat.eqb_spec i n); [lia|]. simpl. apply Hk. lia.
    + intros i. rewrite set1_get, rd_upd, Nat.eqb_refl, Hl, Hout.
      rewrite (proj2 (Nat.ltb_lt n (length v))) by lia. simpl.
      destruct (Nat.eqb_spec i n) as [->|Hne].
      * rewrite (proj2 (Nat.ltb_lt n (S n))) by lia.
        rewrite Hk by lia. reflexivity.
      * destruct (Nat.ltb_spec i n), (Nat.ltb_spec i (S n)); try lia;
          reflexivity.
Qed.

End VolumeAverage.

Lemma ComputeVolumeAverageQuantities_impl_run (tol : Q) (this : HexElement)
  (x u q : View2) (out0 : View1) (nq : nat) :
  nondegenerate tol this (current x u) ->
  exists out,
    ComputeVolumeAverageQuantities_impl tol this x u q out0 nq =
    Ok (out,
        sumQ num_int_pts_
          (fun int_pt => det3 (jacobian_at this (current x u) int_pt))) /\
    forall i, (i < nq)%nat ->
      out i =
      sumQ num_int_pts_
        (fun int_pt =>
           q int_pt i * rd (int_wts_ this) int_pt *
           det3 (jacobian_at this (current x u) int_pt)) /
      sumQ num_int_pts_
        (fun int_pt => det3 (jacobian_at this (current x u) int_pt)).
Proof.
  intros Hnd. unfold ComputeVolumeAverageQuantities_impl. cbv zeta.
  rewrite (forM_ok num_int_pts_ _ (vol_step this (current x u) q nq)).
  2:{ intros i [volume v] Hi. rewrite Invert3x3_ok by (apply Hnd, Hi).
      reflexivity. }
  destruct (vol_loop this (current x u) q nq num_int_pts_) as (Hv & Hl & Hr).
  destruct (for_ num_int_pts_ (vol_step this (current x u) q nq)
              (0, repeat 0 nq)) as [volume v].
  simpl in Hv, Hl, Hr. simpl.
  destruct (vol_finish volume v out0 nq) as (_ & _ & Hout); [lia|].
  destruct (for_ nq _ (v, out0)) as [v' out]. simpl in Hout.
  exists out. split.
  - rewrite Hv. reflexivity.
  - intros i Hi. rewrite Hout, (proj2 (Nat.ltb_lt i nq) Hi), (Hr i Hi), Hv.
    reflexivity.
Qed.

(** ** The tables of the constructed element *)

Lemma HexElement_new_unit_weights (g : Q) (int_pt : nat) :
  (int_pt < num_int_pts_)%nat ->
  rd (int_wts_ (HexElement_new g)) int_pt = 1.
Proof.
  intros H. unfold num_int_pts_ in H.
  do 8 (destruct int_pt as [|int_pt]; [reflexivity|]). lia.
Qed.

(** The trilinear basis is a partition of unity at every point. *)
Lemma ShapeFunctionValues_sum (r s t : Q) :
  sumQ num_nodes_ (fun i => rd (ShapeFunctionValues (r, s, t)) i) == 1.
Proof.
  unfold sumQ, for_, num_nodes_.
  cbn [seq fold_left rd nth ShapeFunctionValues map corner_signs].
  ring.
Qed.

Lemma HexElement_new_partition_of_unity (g : Q) (int_pt : nat) :
  (int_pt < num_int_pts_)%nat ->
  sumQ num_nodes_
    (fun i => rd (shape_fcn_vals_ (HexElement_new g))
                 (int_pt * num_nodes_ + i)) == 1.
Proof.
  intros H. unfold num_int_pts_ in H.
  do 8 (destruct int_pt as [|int_pt];
        [unfold sumQ, for_, num_nodes_;
         cbn [seq fold_left rd nth ShapeFunctionValues map corner_signs
                flat_map app gauss_points HexElement_new shape_fcn_vals_
                Nat.mul Nat.add];
         ring|]).
  lia.
Qed.

(** ** Weighted means *)


Lemma min_over_le (n : nat) (f : nat -> Q) (i : nat) :
  (i < n)%nat -> min_over n f <= f i.
Proof.
  unfold min_over. induction n as [|n IH]; intros Hi; [lia|].
  rewrite for_S. destruct (Nat.eq_dec i n) as [->|Hne].
  - apply Q.le_min_r.
  - eapply Qle_trans; [apply Q.le_min_l | apply IH; lia].
Qed.

Lemma max_over_ge (n : nat) (f : nat -> Q) (i : nat) :
  (i < n)%nat -> f i <= max_over n f.
Proof.
  unfold max_over. induction n as [|n IH]; intros Hi; [lia|].
  rewrite for_S. destruct (Nat.eq_dec i n) as [->|Hne].
  - apply Q.le_max_r.
  - eapply Qle_trans; [apply IH; lia | apply Q.le_max_l].
Qed.

Lemma sumQ_pos (n : nat) (d : nat -> Q) :
  (0 < n)%nat -> (forall i, (i < n)%nat -> 0 < d i) -> 0 < sumQ n d.
Proof.
  induction n as [|n IH]; intros Hn Hd; [lia|].
  rewrite sumQ_S. pose proof (Hd n ltac:(lia)) as Hdn.
  destruct n as [|n].
  - unfold sumQ. rewrite for_0. lra.
  - assert (0 < sumQ (S n) d) by (apply IH; [lia | intros; apply Hd; lia]).
    lra.
Qed.

Lemma weighted_sum_bounds (n : nat) (f d : nat -> Q) (lo hi : Q) :
  (forall i, (i < n)%nat -> lo <= f i <= hi) ->
  (forall i, (i < n)%nat -> 0 < d i) ->
  lo * sumQ n d <= sumQ n (fun i => f i * d i) <= hi * sumQ n d.
Proof.
  induction n as [|n IH]; intros Hf Hd.
  - unfold sumQ. rewrite !for_0. lra.
  - rewrite !sumQ_S.
    destruct IH as [IH1 IH2];
      [intros; apply Hf; lia | intros; apply Hd; lia |].
    pose proof (Hf n ltac:(lia)) as [Hlo Hhi].
    pose proof (Hd n ltac:(lia)) as Hdn.
    split; nra.
Qed.

Lemma weighted_mean_bounds (n : nat) (f d : nat -> Q) (lo hi : Q) :
  (0 < n)%nat ->
  (forall i, (i < n)%nat -> lo <= f i <= hi) ->
  (forall i, (i < n)%nat -> 0 < d i) ->
  lo <= sumQ n (fun i => f i * d i) / sumQ n d <= hi.
Proof.
  intros Hn Hf Hd.
  pose proof (sumQ_pos n d Hn Hd) as Hpos.
  destruct (weighted_sum_bounds n f d lo hi Hf Hd) as [H1 H2].
  split.
  - apply Qle_shift_div_l; assumption.
  - apply Qle_shift_div_r; assumption.
Qed.

(** ** Deformation gradients *)

Ltac mat_simpl := cbn [m00 m01 m02 m10 m11 m12 m20 m21 m22].
Ltac mat_simpl_in_all := cbn [m00 m01 m02 m10 m11 m12 m20 m21 m22] in *.


Lemma store_def_grad_get (d : View2) (int_pt : nat) (def_grad : Mat3)
  (i' j' : nat) :
  store_def_grad d int_pt def_grad i' j' =
  if Nat.eqb i' int_pt && Nat.ltb j' 9 then full_component def_grad j'
  else d i' j'.
Proof.
  unfold store_def_grad. cbv zeta. rewrite !set2_get.
  destruct (Nat.eqb_spec i' int_pt) as [->|Hne]; simpl; [|reflexivity].
  do 9 (destruct j' as [|j']; [reflexivity|]). reflexivity.
Qed.

Lemma ComputeDeformationGradients_impl_run (tol : Q) (this : HexElement)
  (x u d0 : View2) :
  nondegenerate tol this x ->
  exists d,
    ComputeDeformationGradients_impl tol this x u d0 = Ok d /\
    forall int_pt k, (int_pt < 8)%nat -> (k < 9)%nat ->
      d int_pt k =
      full_component
        (mul3 (jacobian_at this (current x u) int_pt)
              (adjugate_over (jacobian_at this x int_pt)
                             (det3 (jacobian_at this x int_pt))))
        k.
Proof.
  intros Hnd. unfold ComputeDeformationGradients_impl.
  set (F := fun int_pt =>
              mul3 (jacobian_at this (current x u) int_pt)
                   (adjugate_over (jacobian_at this x int_pt)
                                  (det3 (jacobian_at this x int_pt)))).
  rewrite (forM_ok 8 _ (fun int_pt d => store_def_grad d int_pt (F int_pt))).
  2:{ intros i d Hi. rewrite jacobians_ab_split.
      rewrite Invert3x3_ok by (apply Hnd, Hi). reflexivity. }
  eexists. split; [reflexivity|].
  intros int_pt k Hp Hk.
  rewrite (for_rows 8 9 (fun i j => full_component (F i) j)).
  - rewrite (proj2 (Nat.ltb_lt _ _) Hp), (proj2 (Nat.ltb_lt _ _) Hk).
    reflexivity.
  - intros i s i' j'. apply store_def_grad_get.
Qed.

Lemma add_outer_scale (a b : Mat3) (s c1 c2 c3 c1' c2' c3' f1 f2 f3 : Q) :
  Meq a (scale3 s b) ->
  c1' == s * c1 -> c2' == s * c2 -> c3' == s * c3 ->
  Meq (add_outer a c1' c2' c3' f1 f2 f3)
      (scale3 s (add_outer b c1 c2 c3 f1 f2 f3)).
Proof.
  destruct a, b. unfold Meq, scale3, add_outer. mat_simpl.
  intros (E0 & E1 & E2 & E3 & E4 & E5 & E6 & E7 & E8) Y0 Y1 Y2.
  repeat apply conj;
    rewrite ?E0, ?E1, ?E2, ?E3, ?E4, ?E5, ?E6, ?E7, ?E8, ?Y0, ?Y1, ?Y2;
    ring.
Qed.

(** The Jacobian is linear in the node coordinates. *)
Lemma jacobian_at_scale (this : HexElement) (x y : View2) (s : Q)
  (int_pt : nat) :
  (forall n k, (n < num_nodes_)%nat -> (k < 3)%nat -> y n k == s * x n k) ->
  Meq (jacobian_at this y int_pt) (scale3 s (jacobian_at this x int_pt)).
Proof.
  intros Hy. unfold jacobian_at.
  assert (G : forall n, (n <= num_nodes_)%nat ->
    Meq (for_ n
           (fun n a =>
              add_outer a (y n 0%nat) (y n 1%nat) (y n 2%nat)
                (rd (shape_fcn_deriv_ this) (24 * int_pt + dim_ * n))
                (rd (shape_fcn_deriv_ this) (24 * int_pt + dim_ * n + 1))
                (rd (shape_fcn_deriv_ this) (24 * int_pt + dim_ * n + 2)))
           zero3)
        (scale3 s
           (for_ n
              (fun n a =>
                 add_outer a (x n 0%nat) (x n 1%nat) (x n 2%nat)
                   (rd (shape_fcn_deriv_ this) (24 * int_pt + dim_ * n))
                   (rd (shape_fcn_deriv_ this) (24 * int_pt + dim_ * n + 1))
                   (rd (shape_fcn_deriv_ this) (24 * int_pt + dim_ * n + 2)))
              zero3))).
  { induction n as [|n IH]; intros Hn.
    - rewrite !for_0. unfold Meq, scale3, zero3. mat_simpl.
      repeat apply conj; ring.
    - rewrite !for_S.
      apply add_outer_scale; [apply IH; lia | apply Hy; lia ..]. }
  apply G. lia.
Qed.

Lemma nonzero_of_above_threshold (tol d : Q) :
  0 <= tol -> tol < Qabs d -> ~ d == 0.
Proof.
  intros Ht Hd E. rewrite E in Hd. change (Qabs 0) with 0 in Hd. lra.
Qed.

(** [(s b) b^-1 = s I], read in the 9-component order. *)
Lemma mul3_scaled_inverse (a b : Mat3) (s : Q) (k : nat) :
  ~ det3 b == 0 ->
  Meq a (scale3 s b) ->
  (k < 9)%nat ->
  full_component (mul3 a (adjugate_over b (det3 b))) k == s * identity_full k.
Proof.
  intros Hd (E0 & E1 & E2 & E3 & E4 & E5 & E6 & E7 & E8) Hk.
  unfold scale3 in *. mat_simpl_in_all.
  do 9 (destruct k as [|k];
        [unfold full_component, mul3, adjugate_over; mat_simpl;
         rewrite ?E0, ?E1, ?E2, ?E3, ?E4, ?E5, ?E6, ?E7, ?E8;
         change (identity_full _) with 1 || change (identity_full _) with 0;
         unfold det3 in *; field; exact Hd|]).
  lia.
Qed.

(** ** Lumped mass *)

Section LumpedMass.

Variable tol : Q.
Variable this : HexElement.
Variable density : Q.
Variable x : View2.

Hypothesis partition_of_unity :
  forall int_pt, (int_pt < num_int_pts_)%nat ->
    sumQ num_nodes_
      (fun i => rd (shape_fcn_vals_ this) (int_pt * num_nodes_ + i)) == 1.


Lemma lump_step_get (int_pt : nat) (lm : View1) (i : nat) :
  lump_step this density x int_pt lm i =
  if Nat.ltb i num_nodes_
  then lm i +
       rd (int_wts_ this) int_pt * density *
       rd (shape_fcn_vals_ this) (int_pt * num_nodes_ + i) *
       det3 (jacobian_at this x int_pt)
  else lm i.
Proof.
  unfold lump_step.
  apply (for_set1 num_nodes_ _
           (fun n (lm : View1) =>
              lm n +
              rd (int_wts_ this) int_pt * density *
              rd (shape_fcn_vals_ this) (int_pt * num_nodes_ + n) *
              det3 (jacobian_at this x int_pt))).
  - intros n s i'. apply set1_get.
  - intros n s s' E. rewrite E. reflexivity.
Qed.

Lemma lump_clear_get (lm : View1) (i : nat) :
  for_ num_nodes_ (fun n lm' => set1 lm' n 0) lm i =
  if Nat.ltb i num_nodes_ then 0 else lm i.
Proof.
  apply (for_set1 num_nodes_ _ (fun _ _ => 0)).
  - intros n s i'. apply set1_get.
  - reflexivity.
Qed.

Lemma lump_step_sum (int_pt : nat) (lm : View1) :
  (int_pt < num_int_pts_)%nat ->
  sumQ num_nodes_ (lump_step this density x int_pt lm) ==
  sumQ num_nodes_ lm +
  density * (rd (int_wts_ this) int_pt * det3 (jacobian_at this x int_pt)).
Proof.
  intros Hpt.
  rewrite (sumQ_ext num_nodes_ (lump_step this density x int_pt lm)
             (fun i =>
                lm i +
                (rd (int_wts_ this) int_pt * density *
                 det3 (jacobian_at this x int_pt)) *
                rd (shape_fcn_vals_ this) (int_pt * num_nodes_ + i))).
  2:{ intros i Hi. rewrite lump_step_get, (proj2 (Nat.ltb_lt _ _) Hi). ring. }
  rewrite sumQ_plus, sumQ_scal, (partition_of_unity int_pt Hpt). ring.
Qed.

Lemma lump_loop_sum (n : nat) (lm : View1) :
  (n <= num_int_pts_)%nat ->
  sumQ num_nodes_ lm == 0 ->
  sumQ num_nodes_ (for_ n (lump_step this density x) lm) ==
  density *
  sumQ n
    (fun int_pt =>
       rd (int_wts_ this) int_pt * det3 (jacobian_at this x int_pt)).
Proof.
  intros Hn H0. induction n as [|n IH].
  - rewrite for_0, H0. unfold sumQ at 1. rewrite for_0. ring.
  - rewrite for_S, lump_step_sum, IH, sumQ_S by lia. ring.
Qed.

Lemma ComputeLumpedMass_run (lm0 : View1) :
  nondegenerate tol this x ->
  ComputeLumpedMass tol this density x lm0 =
  Ok (for_ num_int_pts_ (lump_step this density x)
        (for_ num_nodes_ (fun n lm' => set1 lm' n 0) lm0)).
Proof.
  intros Hnd. unfold ComputeLumpedMass.
  apply (forM_invert tol this x
           (fun int_pt (_ : Mat3) jac_det lm =>
              for_ num_nodes_
                (fun n lm' =>
                   set1 lm' n
                     (lm' n +
                      rd (int_wts_ this) int_pt * density *
                      rd (shape_fcn_vals_ this) (int_pt * num_nodes_ + n) *
                      jac_det))
                lm)).
  exact Hnd.
Qed.

Lemma ComputeLumpedMass_total (lm0 : View1) :
  nondegenerate tol this x ->
  exists lm,
    ComputeLumpedMass tol this density x lm0 = Ok lm /\
    sumQ num_nodes_ lm == density * element_volume this x.
Proof.
  intros Hnd. rewrite ComputeLumpedMass_run by exact Hnd.
  eexists. split; [reflexivity|].
  apply lump_loop_sum; [lia|].
  rewrite (sumQ_ext _ _ (fun _ => 0 * 0)).
  - rewrite sumQ_scal. ring.
  - intros i Hi. rewrite lump_clear_get, (proj2 (Nat.ltb_lt _ _) Hi). ring.
Qed.

End LumpedMass.


(** Settles a statement about every integration point of a sample by
    evaluation at each of the eight. *)
Ltac at_each_point :=
  let pt := fresh "pt" in
  let H := fresh "H" in
  intros pt H;
  do 8 (destruct pt as [|pt]; [vm_compute; reflexivity|]);
  exfalso; unfold num_int_pts_ in H; lia.

(** The unit cube is mapped with the constant Jacobian [I / 2]; pressed
    flat, it has no volume. *)
Example unit_cube_determinants :
  forall int_pt, (int_pt < num_int_pts_)%nat ->
    det3 (jacobian_at sample_element unit_cube int_pt) == 1 # 8.
Proof. at_each_point. Qed.

Example flat_hex_determinants :
  forall int_pt, (int_pt < num_int_pts_)%nat ->
    det3 (jacobian_at sample_element flat_hex int_pt) == 0.
Proof. at_each_point. Qed.

(** * The claims *)

(** C1.  A 3x3 matrix whose determinant has magnitude at or below the
    threshold makes [Invert3x3] return [DegenerateGeometry], and an
    operation that meets such a Jacobian at one of its integration points
    (lumped mass, consistent mass, deformation gradients and tangent on
    the coordinates they are given; nodal forces and volume averaging on
    the current coordinates) returns [DegenerateGeometry] and no output. *)
Theorem C1_degenerate_geometry_propagates (tol : Q) (this : HexElement) :
  (forall mat,
      Qabs (det3 mat) <= tol -> Invert3x3 tol mat = Err DegenerateGeometry) /\
  (forall x int_pt,
      (int_pt < num_int_pts_)%nat ->
      Qabs (det3 (jacobian_at this x int_pt)) <= tol ->
      (forall density lm,
          ComputeLumpedMass tol this density x lm = Err DegenerateGeometry) /\
      (forall density m,
          ComputeConsistentMass_impl tol this density x m =
          Err DegenerateGeometry) /\
      (forall u d,
          ComputeDeformationGradients_impl tol this x u d =
          Err DegenerateGeometry) /\
      (forall tangent_step material_tangent element_tangent,
          ComputeTangent tol this tangent_step x material_tangent
            element_tangent = Err DegenerateGeometry)) /\
  (forall x u int_pt,
      (int_pt < num_int_pts_)%nat ->
      Qabs (det3 (jacobian_at this (current x u) int_pt)) <= tol ->
      (forall stress nf,
          ComputeNodalForces tol this x u stress nf =
          Err DegenerateGeometry) /\
      (forall q out nq,
          ComputeVolumeAverageQuantities_impl tol this x u q out nq =
          Err DegenerateGeometry)).
Proof.
  split; [|split].
  - intros mat H. apply Invert3x3_err, H.
  - intros x int_pt Hi Hd. repeat split; intros.
    + eapply ComputeLumpedMass_degenerate; eauto.
    + eapply ComputeConsistentMass_impl_degenerate; eauto.
    + eapply ComputeDeformationGradients_impl_degenerate; eauto.
    + eapply ComputeTangent_degenerate; eauto.
  - intros x u int_pt Hi Hd. split; intros.
    + eapply ComputeNodalForces_impl_degenerate; eauto.
    + eapply ComputeVolumeAverageQuantities_impl_degenerate; eauto.
Qed.

Lemma C1_witness :
  Qabs (det3 (jacobian_at sample_element (current flat_hex zeros2) 0))
    <= sample_tol /\
  ComputeNodalForces sample_tol sample_element flat_hex zeros2 sample_field
    zeros2 = Err DegenerateGeometry /\
  ComputeVolumeAverageQuantities_impl sample_tol sample_element flat_hex
    zeros2 sample_field zeros1 6 = Err DegenerateGeometry.
Proof.
  assert (Hd : Qabs (det3 (jacobian_at sample_element
                             (current flat_hex zeros2) 0)) <= sample_tol)
    by (vm_compute; discriminate).
  split; [exact Hd|].
  destruct (C1_degenerate_geometry_propagates sample_tol sample_element)
    as (_ & _ & H).
  destruct (H flat_hex zeros2 0%nat ltac:(unfold num_int_pts_; lia) Hd)
    as [Hf Hv].
  split; [apply Hf | apply Hv].
Defined.

(** C2.  With zero displacements (current coordinates equal to the
    reference coordinates) and non-degenerate reference Jacobians,
    [ComputeDeformationGradients_impl] succeeds and writes the identity
    tensor at each of the 8 integration points: one in the XX, YY and ZZ
    slots of the 9-component order and zero in the other six. *)
Theorem C2_zero_displacement_identity (tol : Q) (this : HexElement)
  (node_reference_coords node_displacements deformation_gradients : View2) :
  0 <= tol ->
  nondegenerate tol this node_reference_coords ->
  (forall n k, (n < num_nodes_)%nat -> (k < 3)%nat ->
               node_displacements n k == 0) ->
  exists d,
    ComputeDeformationGradients_impl tol this node_reference_coords
      node_displacements deformation_gradients = Ok d /\
    forall int_pt k, (int_pt < 8)%nat -> (k < 9)%nat ->
      d int_pt k == identity_full k.
Proof.
  intros Ht Hnd Hu.
  destruct (ComputeDeformationGradients_impl_run tol this
              node_reference_coords node_displacements deformation_gradients
              Hnd) as (d & Hd & Hget).
  exists d. split; [exact Hd|].
  intros int_pt k Hp Hk. rewrite (Hget int_pt k Hp Hk).
  rewrite (mul3_scaled_inverse _ _ 1 k).
  - ring.
  - apply (nonzero_of_above_threshold tol); [exact Ht | apply Hnd, Hp].
  - apply jacobian_at_scale. intros n j Hn Hj. unfold current.
    rewrite (Hu n j Hn Hj). ring.
  - exact Hk.
Qed.

Lemma C2_witness :
  exists d,
    ComputeDeformationGradients_impl sample_tol sample_element skew_hex
      zeros2 zeros2 = Ok d /\
    forall int_pt k, (int_pt < 8)%nat -> (k < 9)%nat ->
      d int_pt k == identity_full k.
Proof.
  apply (C2_zero_displacement_identity sample_tol sample_element skew_hex
           zeros2 zeros2).
  - vm_compute. discriminate.
  - unfold nondegenerate. at_each_point.
  - intros n k _ _. reflexivity.
Defined.

(** C6.  When the current coordinates are [s] times the reference
    coordinates and the reference Jacobians are non-degenerate,
    [ComputeDeformationGradients_impl] succeeds and writes [s] times the
    identity tensor at each of the 8 integration points. *)
Theorem C6_uniform_dilation (tol : Q) (this : HexElement) (s : Q)
  (node_reference_coords node_displacements deformation_gradients : View2) :
  0 <= tol ->
  nondegenerate tol this node_reference_coords ->
  (forall n k, (n < num_nodes_)%nat -> (k < 3)%nat ->
               current node_reference_coords node_displacements n k ==
               s * node_reference_coords n k) ->
  exists d,
    ComputeDeformationGradients_impl tol this node_reference_coords
      node_displacements deformation_gradients = Ok d /\
    forall int_pt k, (int_pt < 8)%nat -> (k < 9)%nat ->
      d int_pt k == s * identity_full k.
Proof.
  intros Ht Hnd Hu.
  destruct (ComputeDeformationGradients_impl_run tol this
              node_reference_coords node_displacements deformation_gradients
              Hnd) as (d & Hd & Hget).
  exists d. split; [exact Hd|].
  intros int_pt k Hp Hk. rewrite (Hget int_pt k Hp Hk).
  apply mul3_scaled_inverse.
  - apply (nonzero_of_above_threshold tol); [exact Ht | apply Hnd, Hp].
  - apply jacobian_at_scale. exact Hu.
  - exact Hk.
Qed.

Lemma C6_witness :
  exists d,
    ComputeDeformationGradients_impl sample_tol sample_element skew_hex
      (dilated (5 # 2) skew_hex) zeros2 = Ok d /\
    forall int_pt k, (int_pt < 8)%nat -> (k < 9)%nat ->
      d int_pt k == (5 # 2) * identity_full k.
Proof.
  apply (C6_uniform_dilation sample_tol sample_element (5 # 2) skew_hex
           (dilated (5 # 2) skew_hex) zeros2).
  - vm_compute. discriminate.
  - unfold nondegenerate. at_each_point.
  - intros n k _ _. unfold current, dilated. ring.
Defined.

(** C3.  For non-degenerate reference coordinates and any density, the
    lumped masses of the 8 nodes add up to the density times the
    integrated reference volume [Σ_pt weight_pt * det J_pt]. *)
Theorem C3_lumped_mass_total (tol g density : Q)
  (node_reference_coords : View2) (lumped_mass : View1) :
  nondegenerate tol (HexElement_new g) node_reference_coords ->
  exists lm,
    ComputeLumpedMass tol (HexElement_new g) density node_reference_coords
      lumped_mass = Ok lm /\
    sumQ num_nodes_ lm ==
    density * element_volume (HexElement_new g) node_reference_coords.
Proof.
  intros Hnd. apply ComputeLumpedMass_total; [|exact Hnd].
  apply HexElement_new_partition_of_unity.
Qed.

Lemma C3_witness :
  exists lm,
    ComputeLumpedMass sample_tol sample_element 3 skew_hex zeros1 = Ok lm /\
    sumQ num_nodes_ lm == 3 * element_volume sample_element skew_hex.
Proof.
  apply (C3_lumped_mass_total sample_tol sample_abscissa 3 skew_hex zeros1).
  unfold nondegenerate. at_each_point.
Defined.

(** C4.  For a non-degenerate current geometry and any integration-point
    field, volume averaging succeeds and the volume it returns is the sum
    over the 8 integration points of the quadrature weight times the
    determinant of the current-configuration Jacobian.  (The code adds the
    determinants; the weights of the rule are all one.) *)
Theorem C4_volume_is_quadrature_sum (tol g : Q)
  (node_reference_coords node_displacements int_pt_quantities : View2)
  (vol_ave_quantity : View1) (num_quantities : nat) :
  nondegenerate tol (HexElement_new g)
    (current node_reference_coords node_displacements) ->
  exists out volume,
    ComputeVolumeAverageQuantities_impl tol (HexElement_new g)
      node_reference_coords node_displacements int_pt_quantities
      vol_ave_quantity num_quantities = Ok (out, volume) /\
    volume ==
    sumQ num_int_pts_
      (fun int_pt =>
         rd (int_wts_ (HexElement_new g)) int_pt *
         det3 (jacobian_at (HexElement_new g)
                 (current node_reference_coords node_displacements) int_pt)).
Proof.
  intros Hnd.
  destruct (ComputeVolumeAverageQuantities_impl_run tol (HexElement_new g)
              node_reference_coords node_displacements int_pt_quantities
              vol_ave_quantity num_quantities Hnd) as (out & Hrun & _).
  exists out. eexists. split; [exact Hrun|].
  apply sumQ_ext. intros i Hi.
  rewrite HexElement_new_unit_weights by exact Hi. ring.
Qed.

Lemma C4_witness :
  exists out volume,
    ComputeVolumeAverageQuantities_impl sample_tol sample_element skew_hex
      sample_displacements sample_field zeros1 6 = Ok (out, volume) /\
    volume ==
    sumQ num_int_pts_
      (fun int_pt =>
         rd (int_wts_ sample_element) int_pt *
         det3 (jacobian_at sample_element
                 (current skew_hex sample_displacements) int_pt)).
Proof.
  apply (C4_volume_is_quadrature_sum sample_tol sample_abscissa skew_hex
           sample_displacements sample_field zeros1 6).
  unfold nondegenerate. at_each_point.
Defined.

(** C5.  For non-degenerate current Jacobians and stresses whose six
    components are zero at every integration point, [ComputeNodalForces]
    succeeds and every one of the 8 x 3 force components it writes is
    zero. *)
Theorem C5_zero_stress_zero_force (tol : Q) (this : HexElement)
  (node_reference_coords node_displacements int_pt_stresses node_forces
     : View2) :
  nondegenerate tol this (current node_reference_coords node_displacements) ->
  (forall int_pt k, (int_pt < num_int_pts_)%nat -> (k < 6)%nat ->
                    int_pt_stresses int_pt k == 0) ->
  exists out,
    ComputeNodalForces tol this node_reference_coords node_displacements
      int_pt_stresses node_forces = Ok out /\
    forall node k, (node < num_nodes_)%nat -> (k < 3)%nat ->
      out node k == 0.
Proof.
  intros Hnd Hs. unfold ComputeNodalForces.
  rewrite ComputeNodalForces_impl_run by exact Hnd.
  eexists. split; [reflexivity|].
  intros node k Hn Hk. rewrite store_forces_get.
  rewrite (proj2 (Nat.ltb_lt _ _) Hn), (proj2 (Nat.ltb_lt _ _) Hk).
  cbn [andb]. apply forces_zero_stress. exact Hs.
Qed.

Lemma C5_witness :
  exists out,
    ComputeNodalForces sample_tol sample_element skew_hex
      sample_displacements zeros2 sample_displacements = Ok out /\
    forall node k, (node < num_nodes_)%nat -> (k < 3)%nat ->
      out node k == 0.
Proof.
  apply (C5_zero_stress_zero_force sample_tol sample_element skew_hex
           sample_displacements zeros2 sample_displacements).
  - unfold nondegenerate. at_each_point.
  - intros int_pt k _ _. reflexivity.
Defined.

(** Any bounds on a component over the integration points bound its
    average, when the determinants are positive and pass the inversion. *)
Lemma volume_average_bounds (tol g : Q) (x u q : View2) (out0 : View1)
  (nq : nat) :
  (forall int_pt, (int_pt < num_int_pts_)%nat ->
      0 < det3 (jacobian_at (HexElement_new g) (current x u) int_pt) /\
      tol < det3 (jacobian_at (HexElement_new g) (current x u) int_pt)) ->
  exists out volume,
    ComputeVolumeAverageQuantities_impl tol (HexElement_new g) x u q out0 nq
    = Ok (out, volume) /\
    forall i lo hi, (i < nq)%nat ->
      (forall int_pt, (int_pt < num_int_pts_)%nat ->
                      lo <= q int_pt i <= hi) ->
      lo <= out i <= hi.
Proof.
  intros Hpos.
  assert (Hnd : nondegenerate tol (HexElement_new g) (current x u)).
  { intros int_pt Hi. apply Qabs_gt, Hpos, Hi. }
  destruct (ComputeVolumeAverageQuantities_impl_run tol (HexElement_new g)
              x u q out0 nq Hnd) as (out & Hrun & Hget).
  exists out. eexists. split; [exact Hrun|].
  intros i lo hi Hi Hq. rewrite (Hget i Hi).
  rewrite (sumQ_ext num_int_pts_ _
             (fun int_pt =>
                q int_pt i *
                det3 (jacobian_at (HexElement_new g) (current x u) int_pt))).
  2:{ intros pt Hpt.
      rewrite HexElement_new_unit_weights by exact Hpt. ring. }
  apply (weighted_mean_bounds num_int_pts_ (fun int_pt => q int_pt i)
           (fun int_pt =>
              det3 (jacobian_at (HexElement_new g) (current x u) int_pt))).
  - unfold num_int_pts_. lia.
  - exact Hq.
  - intros pt Hpt. apply Hpos, Hpt.
Qed.

(** C7.  When every integration-point Jacobian determinant of the current
    geometry is strictly positive (and passes the inversion), volume
    averaging succeeds and each averaged component lies between the
    minimum and the maximum of that component over the 8 integration
    points; a component that is the same constant at all 8 points is
    averaged to that constant. *)
Theorem C7_volume_average_in_range (tol g : Q)
  (node_reference_coords node_displacements int_pt_quantities : View2)
  (vol_ave_quantity : View1) (num_quantities : nat) :
  (forall int_pt, (int_pt < num_int_pts_)%nat ->
      0 < det3 (jacobian_at (HexElement_new g)
                  (current node_reference_coords node_displacements) int_pt)
      /\
      tol < det3 (jacobian_at (HexElement_new g)
                    (current node_reference_coords node_displacements)
                    int_pt)) ->
  exists out volume,
    ComputeVolumeAverageQuantities_impl tol (HexElement_new g)
      node_reference_coords node_displacements int_pt_quantities
      vol_ave_quantity num_quantities = Ok (out, volume) /\
    forall i, (i < num_quantities)%nat ->
      (min_over num_int_pts_ (fun int_pt => int_pt_quantities int_pt i)
       <= out i <=
       max_over num_int_pts_ (fun int_pt => int_pt_quantities int_pt i)) /\
      (forall c,
          (forall int_pt, (int_pt < num_int_pts_)%nat ->
                          int_pt_quantities int_pt i == c) ->
          out i == c).
Proof.
  intros Hpos.
  destruct (volume_average_bounds tol g node_reference_coords
              node_displacements int_pt_quantities vol_ave_quantity
              num_quantities Hpos) as (out & volume & Hrun & Hb).
  exists out, volume. split; [exact Hrun|].
  intros i Hi. split.
  - apply Hb; [exact Hi|]. intros pt Hpt. split.
    + apply (min_over_le num_int_pts_
               (fun int_pt => int_pt_quantities int_pt i)), Hpt.
    + apply (max_over_ge num_int_pts_
               (fun int_pt => int_pt_quantities int_pt i)), Hpt.
  - intros c Hc.
    destruct (Hb i c c Hi) as [H1 H2].
    + intros pt Hpt. rewrite (Hc pt Hpt). split; apply Qle_refl.
    + apply Qle_antisym; assumption.
Qed.

Lemma C7_witness :
  exists out volume,
    ComputeVolumeAverageQuantities_impl sample_tol sample_element skew_hex
      sample_displacements sample_field zeros1 6 = Ok (out, volume) /\
    forall i, (i < 6)%nat ->
      (min_over num_int_pts_ (fun int_pt => sample_field int_pt i)
       <= out i <=
       max_over num_int_pts_ (fun int_pt => sample_field int_pt i)) /\
      (forall c,
          (forall int_pt, (int_pt < num_int_pts_)%nat ->
                          sample_field int_pt i == c) ->
          out i == c).
Proof.
  apply (C7_volume_average_in_range sample_tol sample_abscissa skew_hex
           sample_displacements sample_field zeros1 6).
  intros pt H.
  do 8 (destruct pt as [|pt]; [split; vm_compute; reflexivity|]).
  exfalso. unfold num_int_pts_ in H. lia.
Defined.

(** C9.  The matrix produced by [ComputeConsistentMass_impl] is symmetric
    on the 8 x 8 node pairs, for every density and all reference
    coordinates for which it is produced; it is produced whenever the
    reference Jacobians are non-degenerate. *)
Theorem C9_consistent_mass_symmetric (tol : Q) (this : HexElement)
  (density : Q) (node_reference_coords consistent_mass_matrix : View2) :
  (forall m,
      ComputeConsistentMass_impl tol this density node_reference_coords
        consistent_mass_matrix = Ok m ->
      forall i j, (i < num_nodes_)%nat -> (j < num_nodes_)%nat ->
                  m i j == m j i) /\
  (nondegenerate tol this node_reference_coords ->
   exists m,
     ComputeConsistentMass_impl tol this density node_reference_coords
       consistent_mass_matrix = Ok m).
Proof.
  rewrite ComputeConsistentMass_impl_run. split.
  - intros m H i j Hi Hj.
    destruct (forM num_int_pts_ _ zeros1) as [jac_det|e]; simpl in H;
      [|discriminate].
    injection H as <-. rewrite !mass_loops_get.
    rewrite (proj2 (Nat.ltb_lt _ _) Hi), (proj2 (Nat.ltb_lt _ _) Hj).
    cbn [andb]. apply sumQ_ext. intros pt _. apply mass_term_sym.
  - intros Hnd.
    rewrite (forM_invert tol this node_reference_coords
               (fun int_pt (_ : Mat3) det (jac_det : View1) =>
                  set1 jac_det int_pt det)) by exact Hnd.
    eexists. reflexivity.
Qed.

Lemma C9_witness :
  exists m,
    ComputeConsistentMass_impl sample_tol sample_element 3 skew_hex
      sample_displacements = Ok m /\
    forall i j, (i < num_nodes_)%nat -> (j < num_nodes_)%nat ->
                m i j == m j i.
Proof.
  destruct (C9_consistent_mass_symmetric sample_tol sample_element 3 skew_hex
              sample_displacements) as [Hsym Hrun].
  destruct Hrun as [m Hm].
  - unfold nondegenerate. at_each_point.
  - exists m. split; [exact Hm | apply Hsym, Hm].
Defined.

(** C10.  [ComputeNodalForces] assigns every one of the 8 x 3 entries of
    the force buffer: two runs on the same coordinates, displacements and
    stresses that start from different buffer contents either both fail
    with the same error or both succeed with equal force components. *)
Theorem C10_forces_independent_of_buffer (tol : Q) (this : HexElement)
  (node_reference_coords node_displacements int_pt_stresses : View2)
  (node_forces1 node_forces2 : View2) :
  match
    ComputeNodalForces tol this node_reference_coords node_displacements
      int_pt_stresses node_forces1,
    ComputeNodalForces tol this node_reference_coords node_displacements
      int_pt_stresses node_forces2
  with
  | Ok out1, Ok out2 =>
      forall node k, (node < num_nodes_)%nat -> (k < 3)%nat ->
                     out1 node k = out2 node k
  | Err e1, Err e2 => e1 = e2
  | _, _ => False
  end.
Proof.
  unfold ComputeNodalForces, ComputeNodalForces_impl.
  destruct (forM num_int_pts_ _ zeros2) as [force|e]; simpl.
  - intros node k Hn Hk. rewrite !store_forces_get.
    rewrite (proj2 (Nat.ltb_lt _ _) Hn), (proj2 (Nat.ltb_lt _ _) Hk).
    reflexivity.
  - reflexivity.
Qed.

Lemma C10_witness :
  match
    ComputeNodalForces sample_tol sample_element skew_hex
      sample_displacements sample_field zeros2,
    ComputeNodalForces sample_tol sample_element skew_hex
      sample_displacements sample_field sample_field
  with
  | Ok out1, Ok out2 =>
      forall node k, (node < num_nodes_)%nat -> (k < 3)%nat ->
                     out1 node k = out2 node k
  | Err e1, Err e2 => e1 = e2
  | _, _ => False
  end.
Proof.
  exact (C10_forces_independent_of_buffer sample_tol sample_element skew_hex
           sample_displacements sample_field zeros2 sample_field).
Defined.

(** * Further properties of the kernel *)

(** ** More on loops *)

(** An invariant that tracks the iteration count of a fallible loop. *)
Lemma forM_ind {S : Type} (P : nat -> S -> Prop) (n : nat)
  (body : nat -> S -> result S) (s : S) :
  P 0%nat s ->
  (forall i s' s'', (i < n)%nat -> P i s' -> body i s' = Ok s'' ->
                    P (Datatypes.S i) s'') ->
  forall r, forM n body s = Ok r -> P n r.
Proof.
  intros H0. induction n as [|n IH]; intros Hb r H.
  - injection H as <-. exact H0.
  - rewrite forM_S in H.
    destruct (forM n body s) as [s'|e] eqn:E; simpl in H; [|discriminate].
    apply (Hb n s' r); [lia | | exact H].
    apply IH; [|reflexivity]. intros i t t' Hi. apply Hb. lia.
Qed.

(** A loop over the rows [i < n] that rewrites each of its [w] cells from
    the cell's own content. *)
Lemma for_rows_upd (n w : nat) (g : nat -> nat -> Q -> Q)
  (row : nat -> View2 -> View2) (m : View2) :
  (forall i s i' j',
      row i s i' j' = if Nat.eqb i' i && Nat.ltb j' w then g i j' (s i j')
                      else s i' j') ->
  forall i' j',
    for_ n row m i' j' =
    if Nat.ltb i' n && Nat.ltb j' w then g i' j' (m i' j') else m i' j'.
Proof.
  intros Hr. induction n as [|n IH]; intros i' j'.
  - reflexivity.
  - rewrite for_S, Hr, !IH.
    destruct (Nat.eqb_spec i' n) as [->|Hne].
    + rewrite Nat.ltb_irrefl, (proj2 (Nat.ltb_lt n (S n))) by lia.
      reflexivity.
    + destruct (Nat.ltb_spec i' n), (Nat.ltb_spec i' (S n)); try lia;
        reflexivity.
Qed.

(** ** The force accumulator *)

Lemma force_step_get (this : HexElement) (stress : View2) (int_pt : nat)
  (a_inv : Mat3) (jac_det : Q) (node : nat) (force : View2) (i' j' : nat) :
  force_step this stress int_pt a_inv jac_det node force i' j' =
  if Nat.eqb i' node && Nat.ltb j' 3
  then force node j' - force_term this stress int_pt a_inv jac_det node j'
  else force i' j'.
Proof.
  unfold force_step, force_term. cbv zeta. rewrite !set2_get.
  rewrite !Nat.eqb_refl.
  destruct (Nat.eqb_spec i' node) as [->|Hne]; [|reflexivity].
  destruct j' as [|[|[|j']]]; reflexivity.
Qed.

Lemma force_loop_S (this : HexElement) (x stress : View2) (n node k : nat) :
  force_loop this x stress (S n) node k =
  if Nat.ltb node num_nodes_ && Nat.ltb k 3
  then force_loop this x stress n node k -
       force_term this stress n
         (adjugate_over (jacobian_at this x n) (det3 (jacobian_at this x n)))
         (det3 (jacobian_at this x n)) node k
  else force_loop this x stress n node k.
Proof.
  unfold force_loop. rewrite for_S. cbv zeta.
  apply (for_rows_upd num_nodes_ 3
           (fun node k old =>
              old -
              force_term this stress n
                (adjugate_over (jacobian_at this x n)
                               (det3 (jacobian_at this x n)))
                (det3 (jacobian_at this x n)) node k)).
  intros i s i' j'. apply force_step_get.
Qed.

Lemma ComputeNodalForces_impl_loop (tol : Q) (this : HexElement)
  (x u stress nf : View2) :
  nondegenerate tol this (current x u) ->
  ComputeNodalForces_impl tol this x u stress nf =
  Ok (store_forces (force_loop this (current x u) stress num_int_pts_) nf).
Proof. apply ComputeNodalForces_impl_run. Qed.

Lemma sumQ_minus (n : nat) (f g : nat -> Q) :
  sumQ n (fun i => f i - g i) == sumQ n f - sumQ n g.
Proof.
  induction n as [|n IH].
  - unfold sumQ. rewrite !for_0. ring.
  - rewrite !sumQ_S, IH. ring.
Qed.

Lemma force_loop_0 (this : HexElement) (x stress : View2) (node k : nat) :
  force_loop this x stress 0 node k = 0.
Proof. reflexivity. Qed.

Lemma force_term_linear (this : HexElement) (s1 s2 : View2) (a b : Q)
  (int_pt : nat) (a_inv : Mat3) (jac_det : Q) (node k : nat) :
  force_term this (fun pt c => a * s1 pt c + b * s2 pt c) int_pt a_inv
    jac_det node k ==
  a * force_term this s1 int_pt a_inv jac_det node k +
  b * force_term this s2 int_pt a_inv jac_det node k.
Proof.
  unfold force_term. destruct k as [|[|[|k]]]; cbv beta zeta; ring.
Qed.

Lemma force_loop_linear (this : HexElement) (x s1 s2 : View2) (a b : Q)
  (n node k : nat) :
  force_loop this x (fun pt c => a * s1 pt c + b * s2 pt c) n node k ==
  a * force_loop this x s1 n node k + b * force_loop this x s2 n node k.
Proof.
  induction n as [|n IH].
  - rewrite !force_loop_0. ring.
  - rewrite !force_loop_S.
    destruct (Nat.ltb node num_nodes_ && Nat.ltb k 3); [|exact IH].
    rewrite IH, force_term_linear. ring.
Qed.

Lemma force_term_ext (this : HexElement) (s1 s2 : View2) (int_pt : nat)
  (a_inv : Mat3) (jac_det : Q) (node k : nat) :
  (forall c, (c < 6)%nat -> s1 int_pt c = s2 int_pt c) ->
  force_term this s1 int_pt a_inv jac_det node k =
  force_term this s2 int_pt a_inv jac_det node k.
Proof.
  intros H. unfold force_term.
  unfold K_S_XX_, K_S_YY_, K_S_ZZ_, K_S_XY_, K_S_YZ_, K_S_ZX_,
    K_S_YX_, K_S_ZY_, K_S_XZ_.
  rewrite (H 0%nat), (H 1%nat), (H 2%nat), (H 3%nat), (H 4%nat), (H 5%nat)
    by lia.
  reflexivity.
Qed.

Lemma force_loop_ext (this : HexElement) (x s1 s2 : View2) (n node k : nat) :
  (n <= num_int_pts_)%nat ->
  (forall int_pt c, (int_pt < num_int_pts_)%nat -> (c < 6)%nat ->
                    s1 int_pt c = s2 int_pt c) ->
  force_loop this x s1 n node k = force_loop this x s2 n node k.
Proof.
  intros Hn H. induction n as [|n IH].
  - reflexivity.
  - rewrite !force_loop_S, IH by lia.
    rewrite (force_term_ext this s1 s2 n) by (intros; apply H; lia).
    reflexivity.
Qed.

(** The derivative sums in the index form of the force loop. *)
Lemma derivative_sums (this : HexElement) (int_pt : nat) :
  derivatives_sum_zero this ->
  (int_pt < num_int_pts_)%nat ->
  sumQ num_nodes_
    (fun node =>
       rd (shape_fcn_deriv_ this) (int_pt * dim_nodes + dim_ * node)) == 0 /\
  sumQ num_nodes_
    (fun node =>
       rd (shape_fcn_deriv_ this) (int_pt * dim_nodes + dim_ * node + 1))
  == 0 /\
  sumQ num_nodes_
    (fun node =>
       rd (shape_fcn_deriv_ this) (int_pt * dim_nodes + dim_ * node + 2))
  == 0.
Proof.
  intros H Hpt.
  pose proof (H int_pt 0%nat Hpt ltac:(lia)) as H0.
  pose proof (H int_pt 1%nat Hpt ltac:(lia)) as H1.
  pose proof (H int_pt 2%nat Hpt ltac:(lia)) as H2.
  repeat split; [rewrite <- H0 | rewrite <- H1 | rewrite <- H2];
    apply sumQ_ext; intros n _; unfold dim_nodes, dim_, num_nodes_;
    match goal with
    | |- rd _ ?i == rd _ ?j => replace i with j by lia; reflexivity
    end.
Qed.

Lemma force_term_sum_zero (this : HexElement) (stress : View2)
  (int_pt : nat) (a_inv : Mat3) (jac_det : Q) (k : nat) :
  derivatives_sum_zero this ->
  (int_pt < num_int_pts_)%nat ->
  sumQ num_nodes_
    (fun node => force_term this stress int_pt a_inv jac_det node k) == 0.
Proof.
  intros H Hpt.
  destruct (derivative_sums this int_pt H Hpt) as (S0 & S1 & S2).
  set (w := jac_det * rd (int_wts_ this) int_pt).
  destruct k as [|[|[|k]]].
  4:{ rewrite (sumQ_ext _ _ (fun _ => 0 * 0)) by (intros; simpl; ring).
      rewrite sumQ_scal. ring. }
  all: match goal with
       | |- sumQ _ (fun node => force_term _ _ _ _ _ node ?k) == 0 =>
           set (sa := stress int_pt
                        match k with
                        | 0%nat => K_S_XX_ | 1%nat => K_S_XY_ | _ => K_S_XZ_
                        end);
           set (sb := stress int_pt
                        match k with
                        | 0%nat => K_S_YX_ | 1%nat => K_S_YY_ | _ => K_S_YZ_
                        end);
           set (sc := stress int_pt
                        match k with
                        | 0%nat => K_S_ZX_ | 1%nat => K_S_ZY_ | _ => K_S_ZZ_
                        end)
       end;
    rewrite (sumQ_ext _ _
               (fun node =>
                  ((m00 a_inv * sa + m01 a_inv * sb + m02 a_inv * sc) * w) *
                  rd (shape_fcn_deriv_ this)
                     (int_pt * dim_nodes + dim_ * node) +
                  (((m10 a_inv * sa + m11 a_inv * sb + m12 a_inv * sc) * w) *
                   rd (shape_fcn_deriv_ this)
                      (int_pt * dim_nodes + dim_ * node + 1) +
                   ((m20 a_inv * sa + m21 a_inv * sb + m22 a_inv * sc) * w) *
                   rd (shape_fcn_deriv_ this)
                      (int_pt * dim_nodes + dim_ * node + 2))))
      by (intros node _; unfold force_term, sa, sb, sc, w; cbv zeta; ring);
    rewrite !sumQ_plus, !sumQ_scal, S0, S1, S2; ring.
Qed.

Lemma force_loop_sum_zero (this : HexElement) (x stress : View2)
  (n k : nat) :
  derivatives_sum_zero this ->
  (n <= num_int_pts_)%nat ->
  sumQ num_nodes_ (fun node => force_loop this x stress n node k) == 0.
Proof.
  intros H Hn. induction n as [|n IH].
  - rewrite (sumQ_ext _ _ (fun _ => 0 * 0))
      by (intros; rewrite force_loop_0; ring).
    rewrite sumQ_scal. ring.
  - destruct (Nat.ltb_spec k 3) as [Hk|Hk].
    + rewrite (sumQ_ext _ _
                 (fun node =>
                    force_loop this x stress n node k -
                    force_term this stress n
                      (adjugate_over (jacobian_at this x n)
                                     (det3 (jacobian_at this x n)))
                      (det3 (jacobian_at this x n)) node k)).
      * rewrite sumQ_minus, IH, force_term_sum_zero by (auto; lia). ring.
      * intros node Hnode. rewrite force_loop_S.
        rewrite (proj2 (Nat.ltb_lt _ _) Hnode), (proj2 (Nat.ltb_lt _ _) Hk).
        reflexivity.
    + rewrite <- IH by lia. apply sumQ_ext. intros node _.
      rewrite force_loop_S, (proj2 (Nat.ltb_ge _ _) Hk), andb_false_r.
      reflexivity.
Qed.

Lemma ShapeFunctionDerivatives_sum (r s t : Q) (c : nat) :
  (c < 3)%nat ->
  sumQ num_nodes_
    (fun n => rd (ShapeFunctionDerivatives (r, s, t)) (dim_ * n + c)) == 0.
Proof.
  intros Hc. unfold sumQ, for_, num_nodes_, dim_.
  do 3 (destruct c as [|c];
        [cbn [seq fold_left rd nth ShapeFunctionDerivatives flat_map app
                corner_signs Nat.mul Nat.add];
         ring|]).
  lia.
Qed.

Lemma HexElement_new_derivatives_sum_zero (g : Q) :
  derivatives_sum_zero (HexElement_new g).
Proof.
  intros int_pt c Hpt Hc. unfold num_int_pts_ in Hpt.
  unfold sumQ, for_, num_nodes_, dim_.
  do 8 (destruct int_pt as [|int_pt];
        [do 3 (destruct c as [|c];
               [cbn [seq fold_left rd nth ShapeFunctionDerivatives flat_map
                       app corner_signs Nat.mul Nat.add gauss_points map
                       HexElement_new shape_fcn_deriv_];
                ring|]);
         lia|]).
  lia.
Qed.

(** ** Nodal forces *)

(** X3.  [ComputeNodalForces] writes the 8 x 3 block of the force view and
    nothing else: every entry with [node >= 8] or [k >= 3] keeps the
    content it had before the call. *)
Theorem X3_nodal_forces_frame (tol : Q) (this : HexElement)
  (node_reference_coords node_displacements int_pt_stresses node_forces
     out : View2) :
  ComputeNodalForces tol this node_reference_coords node_displacements
    int_pt_stresses node_forces = Ok out ->
  forall node k, (num_nodes_ <= node)%nat \/ (3 <= k)%nat ->
                 out node k = node_forces node k.
Proof.
  unfold ComputeNodalForces, ComputeNodalForces_impl.
  destruct (forM num_int_pts_ _ zeros2) as [force|e]; simpl;
    [|discriminate].
  intros [= <-] node k H. rewrite store_forces_get.
  destruct (Nat.ltb_spec node num_nodes_), (Nat.ltb_spec k 3);
    try reflexivity.
  lia.
Qed.

Lemma X3_witness :
  exists out,
    ComputeNodalForces sample_tol sample_element skew_hex
      sample_displacements sample_field sample_field = Ok out /\
    forall node k, (num_nodes_ <= node)%nat \/ (3 <= k)%nat ->
                   out node k = sample_field node k.
Proof.
  eexists. split.
  - apply ComputeNodalForces_impl_loop. unfold nondegenerate. at_each_point.
  - apply (X3_nodal_forces_frame sample_tol sample_element skew_hex
             sample_displacements sample_field sample_field).
    apply ComputeNodalForces_impl_loop. unfold nondegenerate. at_each_point.
Defined.

(** X4.  The nodal forces are linear in the stresses: on a non-degenerate
    geometry the forces of the stress field [a * s1 + b * s2] are [a] times
    the forces of [s1] plus [b] times the forces of [s2], in each of the
    8 x 3 components. *)
Theorem X4_nodal_forces_linear_in_stress (tol : Q) (this : HexElement)
  (node_reference_coords node_displacements s1 s2 : View2) (a b : Q)
  (nf1 nf2 nf : View2) :
  nondegenerate tol this (current node_reference_coords node_displacements) ->
  exists o1 o2 o,
    ComputeNodalForces tol this node_reference_coords node_displacements
      s1 nf1 = Ok o1 /\
    ComputeNodalForces tol this node_reference_coords node_displacements
      s2 nf2 = Ok o2 /\
    ComputeNodalForces tol this node_reference_coords node_displacements
      (fun int_pt c => a * s1 int_pt c + b * s2 int_pt c) nf = Ok o /\
    forall node k, (node < num_nodes_)%nat -> (k < 3)%nat ->
      o node k == a * o1 node k + b * o2 node k.
Proof.
  intros Hnd. unfold ComputeNodalForces.
  rewrite !ComputeNodalForces_impl_loop by exact Hnd.
  do 3 eexists.
  split; [reflexivity|]. split; [reflexivity|]. split; [reflexivity|].
  intros node k Hn Hk. rewrite !store_forces_get.
  rewrite (proj2 (Nat.ltb_lt _ _) Hn), (proj2 (Nat.ltb_lt _ _) Hk).
  cbn [andb]. apply force_loop_linear.
Qed.

Lemma X4_witness :
  exists o1 o2 o,
    ComputeNodalForces sample_tol sample_element skew_hex
      sample_displacements sample_field zeros2 = Ok o1 /\
    ComputeNodalForces sample_tol sample_element skew_hex
      sample_displacements sample_displacements zeros2 = Ok o2 /\
    ComputeNodalForces sample_tol sample_element skew_hex
      sample_displacements
      (fun int_pt c =>
         2 * sample_field int_pt c + (-3) * sample_displacements int_pt c)
      zeros2 = Ok o /\
    forall node k, (node < num_nodes_)%nat -> (k < 3)%nat ->
      o node k == 2 * o1 node k + (-3) * o2 node k.
Proof.
  apply (X4_nodal_forces_linear_in_stress sample_tol sample_element skew_hex
           sample_displacements sample_field sample_displacements 2 (-3)
           zeros2 zeros2 zeros2).
  unfold nondegenerate. at_each_point.
Defined.

(** X5.  The internal forces are self-equilibrated: when the shape
    derivatives of the element's table add up to zero over the nodes at
    every integration point, the 8 nodal forces add up to zero in each of
    the 3 components, for any stresses on a non-degenerate geometry. *)
Theorem X5_nodal_forces_sum_to_zero (tol : Q) (this : HexElement)
  (node_reference_coords node_displacements int_pt_stresses node_forces
     : View2) :
  derivatives_sum_zero this ->
  nondegenerate tol this (current node_reference_coords node_displacements) ->
  exists out,
    ComputeNodalForces tol this node_reference_coords node_displacements
      int_pt_stresses node_forces = Ok out /\
    forall k, (k < 3)%nat ->
      sumQ num_nodes_ (fun node => out node k) == 0.
Proof.
  intros Hz Hnd. unfold ComputeNodalForces.
  rewrite ComputeNodalForces_impl_loop by exact Hnd.
  eexists. split; [reflexivity|].
  intros k Hk.
  rewrite <- (force_loop_sum_zero this
                (current node_reference_coords node_displacements)
                int_pt_stresses num_int_pts_ k Hz (Nat.le_refl _)).
  apply sumQ_ext. intros node Hn. rewrite store_forces_get.
  rewrite (proj2 (Nat.ltb_lt _ _) Hn), (proj2 (Nat.ltb_lt _ _) Hk).
  reflexivity.
Qed.

Lemma X5_witness :
  exists out,
    ComputeNodalForces sample_tol sample_element skew_hex
      sample_displacements sample_field zeros2 = Ok out /\
    forall k, (k < 3)%nat ->
      sumQ num_nodes_ (fun node => out node k) == 0.
Proof.
  apply (X5_nodal_forces_sum_to_zero sample_tol sample_element skew_hex
           sample_displacements sample_field zeros2).
  - apply HexElement_new_derivatives_sum_zero.
  - unfold nondegenerate. at_each_point.
Defined.

(** X6.  [ComputeNodalForces] reads the stresses only in the six symmetric
    slots of the 8 integration points: two stress views that agree there
    give the same forces, whatever else they hold. *)
Theorem X6_nodal_forces_read_six_slots (tol : Q) (this : HexElement)
  (node_reference_coords node_displacements s1 s2 node_forces : View2) :
  nondegenerate tol this (current node_reference_coords node_displacements) ->
  (forall int_pt c, (int_pt < num_int_pts_)%nat -> (c < 6)%nat ->
                    s1 int_pt c = s2 int_pt c) ->
  exists o1 o2,
    ComputeNodalForces tol this node_reference_coords node_displacements
      s1 node_forces = Ok o1 /\
    ComputeNodalForces tol this node_reference_coords node_displacements
      s2 node_forces = Ok o2 /\
    forall node k, o1 node k = o2 node k.
Proof.
  intros Hnd Hs. unfold ComputeNodalForces.
  rewrite !ComputeNodalForces_impl_loop by exact Hnd.
  do 2 eexists. split; [reflexivity|]. split; [reflexivity|].
  intros node k. rewrite !store_forces_get.
  rewrite (force_loop_ext this _ s1 s2 num_int_pts_ node k
             (Nat.le_refl _) Hs).
  reflexivity.
Qed.

Lemma X6_witness :
  exists o1 o2,
    ComputeNodalForces sample_tol sample_element skew_hex
      sample_displacements sample_field zeros2 = Ok o1 /\
    ComputeNodalForces sample_tol sample_element skew_hex
      sample_displacements
      (fun int_pt c =>
         if Nat.ltb c 6 && Nat.ltb int_pt 8 then sample_field int_pt c
         else 1)
      zeros2 = Ok o2 /\
    forall node k, o1 node k = o2 node k.
Proof.
  apply (X6_nodal_forces_read_six_slots sample_tol sample_element skew_hex
           sample_displacements sample_field
           (fun int_pt c =>
              if Nat.ltb c 6 && Nat.ltb int_pt 8 then sample_field int_pt c
              else 1)
           zeros2).
  - unfold nondegenerate. at_each_point.
  - intros int_pt c Hp Hc. unfold num_int_pts_ in Hp.
    rewrite (proj2 (Nat.ltb_lt _ _) Hc), (proj2 (Nat.ltb_lt _ _) Hp).
    reflexivity.
Defined.

(** ** More on sums *)

Lemma sumQ_zero (n : nat) (f : nat -> Q) :
  (forall i, (i < n)%nat -> f i == 0) -> sumQ n f == 0.
Proof.
  intros H. rewrite (sumQ_ext n f (fun _ => 0 * 0)).
  - rewrite sumQ_scal. ring.
  - intros i Hi. rewrite (H i Hi). ring.
Qed.

Lemma sumQ_nonneg (n : nat) (f : nat -> Q) :
  (forall i, (i < n)%nat -> 0 <= f i) -> 0 <= sumQ n f.
Proof.
  induction n as [|n IH]; intros H.
  - unfold sumQ. rewrite for_0. apply Qle_refl.
  - rewrite sumQ_S.
    assert (0 <= sumQ n f) by (apply IH; intros; apply H; lia).
    pose proof (H n ltac:(lia)). lra.
Qed.

Lemma sumQ_swap (n m : nat) (g : nat -> nat -> Q) :
  sumQ n (fun i => sumQ m (g i)) ==
  sumQ m (fun p => sumQ n (fun i => g i p)).
Proof.
  induction n as [|n IH].
  - symmetry. apply sumQ_zero. intros. reflexivity.
  - rewrite sumQ_S, IH.
    rewrite (sumQ_ext m (fun p => sumQ (S n) (fun i => g i p))
               (fun p => sumQ n (fun i => g i p) + g n p)).
    + rewrite sumQ_plus. reflexivity.
    + intros p _. rewrite sumQ_S. reflexivity.
Qed.

Lemma sumQ_mul (n : nat) (f g : nat -> Q) :
  sumQ n (fun i => sumQ n (fun j => f i * g j)) == sumQ n f * sumQ n g.
Proof.
  rewrite (sumQ_ext n _ (fun i => sumQ n g * f i)).
  - rewrite sumQ_scal. ring.
  - intros i _. rewrite sumQ_scal. ring.
Qed.

(** ** The consistent mass matrix, continued *)

(** A successful inversion returns the determinant. *)
Lemma Invert3x3_ok_inv (tol : Q) (mat a_inv : Mat3) (d : Q) :
  Invert3x3 tol mat = Ok (a_inv, d) ->
  d = det3 mat /\ a_inv = adjugate_over mat (det3 mat) /\
  tol < Qabs (det3 mat).
Proof.
  unfold Invert3x3.
  destruct (Qle_bool (Qabs (det3 mat)) tol) eqn:E; [discriminate|].
  intros [= <- <-]. split; [reflexivity|]. split; [reflexivity|].
  apply Qnot_le_lt. intros Hle. apply Qle_bool_iff in Hle. congruence.
Qed.

(** The first loop of [ComputeConsistentMass_impl], lines 275-298, stores
    the determinant of every integration point it passes. *)
Lemma jac_det_step_inv (tol : Q) (mat : Mat3) (n : nat) (jd' jd : View1) :
  ('(a_inv, det) <- Invert3x3 tol mat ;; Ok (set1 jd' n det)) = Ok jd ->
  jd = set1 jd' n (det3 mat).
Proof.
  intros H.
  destruct (Invert3x3 tol mat) as [[a_inv d]|e] eqn:E;
    cbn [bind] in H; [|discriminate].
  injection H as <-.
  destruct (Invert3x3_ok_inv tol mat a_inv d E) as (-> & _). reflexivity.
Qed.

Lemma jac_det_loop_inv (tol : Q) (mats : nat -> Mat3) (n : nat)
  (jd0 jd : View1) :
  forM n
    (fun int_pt (jac_det : View1) =>
       '(a_inv, det) <- Invert3x3 tol (mats int_pt) ;;
       Ok (set1 jac_det int_pt det))
    jd0 = Ok jd ->
  forall int_pt, (int_pt < n)%nat -> jd int_pt = det3 (mats int_pt).
Proof.
  revert jd. induction n as [|n IH]; intros jd H int_pt Hpt; [lia|].
  rewrite forM_S in H.
  destruct (forM n _ jd0) as [jd'|e]; cbn [bind] in H; [|discriminate].
  apply jac_det_step_inv in H. subst jd. rewrite set1_get.
  destruct (Nat.eqb_spec int_pt n) as [->|Hne]; [reflexivity|].
  apply (IH jd'); [reflexivity | lia].
Qed.

(** What a successful call has computed: the determinants of the first
    loop and the matrix of the second. *)
Lemma ComputeConsistentMass_impl_inv (tol : Q) (this : HexElement)
  (density : Q) (x m0 m : View2) :
  ComputeConsistentMass_impl tol this density x m0 = Ok m ->
  exists jac_det : View1,
    (forall int_pt, (int_pt < num_int_pts_)%nat ->
                    jac_det int_pt = det3 (jacobian_at this x int_pt)) /\
    m = mass_loops this density jac_det m0.
Proof.
  rewrite ComputeConsistentMass_impl_run.
  destruct (forM num_int_pts_ _ zeros1) as [jac_det|e] eqn:E; cbn [bind];
    [|discriminate].
  intros H. exists jac_det. split.
  - exact (jac_det_loop_inv tol (jacobian_at this x) num_int_pts_ zeros1
             jac_det E).
  - congruence.
Qed.

(** The quadratic form of the mass matrix, one square per integration
    point. *)
Lemma mass_quad_form (this : HexElement) (density : Q) (jac_det : View1)
  (m0 : View2) (v : View1) :
  quad_form num_nodes_ (mass_loops this density jac_det m0) v ==
  sumQ num_int_pts_
    (fun int_pt =>
       rd (int_wts_ this) int_pt * density * jac_det int_pt *
       (sumQ num_nodes_
          (fun i =>
             v i * rd (shape_fcn_vals_ this) (int_pt * num_nodes_ + i)) *
        sumQ num_nodes_
          (fun i =>
             v i * rd (shape_fcn_vals_ this) (int_pt * num_nodes_ + i)))).
Proof.
  unfold quad_form.
  rewrite (sumQ_ext num_nodes_ _
             (fun i =>
                sumQ num_int_pts_
                  (fun int_pt =>
                     sumQ num_nodes_
                       (fun j =>
                          (rd (int_wts_ this) int_pt * density *
                           jac_det int_pt) *
                          ((v i *
                            rd (shape_fcn_vals_ this)
                               (int_pt * num_nodes_ + i)) *
                           (v j *
                            rd (shape_fcn_vals_ this)
                               (int_pt * num_nodes_ + j))))))).
  - rewrite sumQ_swap. apply sumQ_ext. intros int_pt _.
    rewrite (sumQ_ext num_nodes_ _
               (fun i =>
                  (rd (int_wts_ this) int_pt * density * jac_det int_pt) *
                  sumQ num_nodes_
                    (fun j =>
                       (v i *
                        rd (shape_fcn_vals_ this) (int_pt * num_nodes_ + i)) *
                       (v j *
                        rd (shape_fcn_vals_ this)
                           (int_pt * num_nodes_ + j)))))
      by (intros i _; rewrite sumQ_scal; reflexivity).
    rewrite sumQ_scal.
    rewrite (sumQ_mul num_nodes_
               (fun i =>
                  v i * rd (shape_fcn_vals_ this) (int_pt * num_nodes_ + i))
               (fun j =>
                  v j * rd (shape_fcn_vals_ this) (int_pt * num_nodes_ + j))).
    reflexivity.
  - intros i Hi. rewrite <- sumQ_swap. apply sumQ_ext. intros j Hj.
    rewrite mass_loops_get.
    rewrite (proj2 (Nat.ltb_lt _ _) Hi), (proj2 (Nat.ltb_lt _ _) Hj).
    cbn [andb].
    transitivity
      (sumQ num_int_pts_
         (fun int_pt =>
            (v i * v j) * mass_term this density jac_det i j int_pt)).
    + rewrite sumQ_scal. ring.
    + apply sumQ_ext. intros int_pt _. unfold mass_term. ring.
Qed.

Lemma ComputeConsistentMass_impl_ok (tol : Q) (this : HexElement)
  (density : Q) (x m0 : View2) :
  nondegenerate tol this x ->
  exists m, ComputeConsistentMass_impl tol this density x m0 = Ok m.
Proof.
  intros Hnd. rewrite ComputeConsistentMass_impl_run.
  rewrite (forM_invert tol this x
             (fun int_pt (_ : Mat3) det (jac_det : View1) =>
                set1 jac_det int_pt det)) by exact Hnd.
  eexists. reflexivity.
Qed.

(** X7.  [ComputeConsistentMass_impl] assigns the 8 x 8 block of its output
    and nothing else: the block does not depend on what the buffer held
    before the call, and every entry outside the block is left as it
    was. *)
Theorem X7_consistent_mass_assigns_block (tol : Q) (this : HexElement)
  (density : Q) (node_reference_coords m0 m0' m m' : View2) :
  ComputeConsistentMass_impl tol this density node_reference_coords m0
  = Ok m ->
  ComputeConsistentMass_impl tol this density node_reference_coords m0'
  = Ok m' ->
  (forall i j, (i < num_nodes_)%nat -> (j < num_nodes_)%nat ->
               m i j = m' i j) /\
  (forall i j, (num_nodes_ <= i)%nat \/ (num_nodes_ <= j)%nat ->
               m i j = m0 i j).
Proof.
  rewrite !ComputeConsistentMass_impl_run.
  destruct (forM num_int_pts_ _ zeros1) as [jac_det|e]; cbn [bind];
    [|discriminate].
  intros H1 H2.
  assert (E1 : m = mass_loops this density jac_det m0) by congruence.
  assert (E2 : m' = mass_loops this density jac_det m0') by congruence.
  subst m m'. split.
  - intros i j Hi Hj. rewrite !mass_loops_get.
    rewrite (proj2 (Nat.ltb_lt _ _) Hi), (proj2 (Nat.ltb_lt _ _) Hj).
    reflexivity.
  - intros i j H. rewrite mass_loops_get.
    destruct (Nat.ltb_spec i num_nodes_), (Nat.ltb_spec j num_nodes_);
      try reflexivity.
    lia.
Qed.

Lemma X7_witness :
  exists m m',
    ComputeConsistentMass_impl sample_tol sample_element 3 skew_hex zeros2
    = Ok m /\
    ComputeConsistentMass_impl sample_tol sample_element 3 skew_hex
      sample_field = Ok m' /\
    (forall i j, (i < num_nodes_)%nat -> (j < num_nodes_)%nat ->
                 m i j = m' i j) /\
    (forall i j, (num_nodes_ <= i)%nat \/ (num_nodes_ <= j)%nat ->
                 m i j = zeros2 i j).
Proof.
  assert (Hnd : nondegenerate sample_tol sample_element skew_hex)
    by (unfold nondegenerate; at_each_point).
  destruct (ComputeConsistentMass_impl_ok sample_tol sample_element 3
              skew_hex zeros2 Hnd) as [m Hm].
  destruct (ComputeConsistentMass_impl_ok sample_tol sample_element 3
              skew_hex sample_field Hnd) as [m' Hm'].
  exists m, m'. split; [exact Hm|]. split; [exact Hm'|].
  exact (X7_consistent_mass_assigns_block sample_tol sample_element 3
           skew_hex zeros2 sample_field m m' Hm Hm').
Defined.

(** X8.  The consistent mass matrix is proportional to the density:
    multiplying the density by [c] multiplies each of the 8 x 8 entries by
    [c]. *)
Theorem X8_consistent_mass_linear_in_density (tol : Q) (this : HexElement)
  (density c : Q) (node_reference_coords m0 m0' m m' : View2) :
  ComputeConsistentMass_impl tol this density node_reference_coords m0
  = Ok m ->
  ComputeConsistentMass_impl tol this (c * density) node_reference_coords
    m0' = Ok m' ->
  forall i j, (i < num_nodes_)%nat -> (j < num_nodes_)%nat ->
              m' i j == c * m i j.
Proof.
  rewrite !ComputeConsistentMass_impl_run.
  destruct (forM num_int_pts_ _ zeros1) as [jac_det|e]; cbn [bind];
    [|discriminate].
  intros H1 H2.
  assert (E1 : m = mass_loops this density jac_det m0) by congruence.
  assert (E2 : m' = mass_loops this (c * density) jac_det m0')
    by congruence.
  subst m m'. intros i j Hi Hj. rewrite !mass_loops_get.
  rewrite (proj2 (Nat.ltb_lt _ _) Hi), (proj2 (Nat.ltb_lt _ _) Hj).
  cbn [andb]. rewrite <- sumQ_scal. apply sumQ_ext.
  intros int_pt _. unfold mass_term. ring.
Qed.

Lemma X8_witness :
  exists m m',
    ComputeConsistentMass_impl sample_tol sample_element 3 skew_hex zeros2
    = Ok m /\
    ComputeConsistentMass_impl sample_tol sample_element ((5 # 2) * 3)
      skew_hex zeros2 = Ok m' /\
    forall i j, (i < num_nodes_)%nat -> (j < num_nodes_)%nat ->
                m' i j == (5 # 2) * m i j.
Proof.
  assert (Hnd : nondegenerate sample_tol sample_element skew_hex)
    by (unfold nondegenerate; at_each_point).
  destruct (ComputeConsistentMass_impl_ok sample_tol sample_element 3
              skew_hex zeros2 Hnd) as [m Hm].
  destruct (ComputeConsistentMass_impl_ok sample_tol sample_element
              ((5 # 2) * 3) skew_hex zeros2 Hnd) as [m' Hm'].
  exists m, m'. split; [exact Hm|]. split; [exact Hm'|].
  exact (X8_consistent_mass_linear_in_density sample_tol sample_element 3
           (5 # 2) skew_hex zeros2 zeros2 m m' Hm Hm').
Defined.

(** X9.  For a non-negative density, non-negative quadrature weights and
    non-negative Jacobian determinants, the consistent mass matrix is
    positive semidefinite: [v^T M v >= 0] for every nodal vector [v]. *)
Theorem X9_consistent_mass_positive_semidefinite (tol : Q)
  (this : HexElement) (density : Q) (node_reference_coords m0 m : View2) :
  ComputeConsistentMass_impl tol this density node_reference_coords m0
  = Ok m ->
  0 <= density ->
  (forall int_pt, (int_pt < num_int_pts_)%nat ->
                  0 <= rd (int_wts_ this) int_pt) ->
  (forall int_pt, (int_pt < num_int_pts_)%nat ->
                  0 <= det3 (jacobian_at this node_reference_coords int_pt)) ->
  forall v : View1, 0 <= quad_form num_nodes_ m v.
Proof.
  intros H Hrho Hw Hdet v.
  destruct (ComputeConsistentMass_impl_inv tol this density
              node_reference_coords m0 m H) as (jac_det & Hjd & ->).
  rewrite mass_quad_form. apply sumQ_nonneg. intros int_pt Hpt.
  rewrite (Hjd int_pt Hpt).
  pose proof (Hw int_pt Hpt) as Hw'. pose proof (Hdet int_pt Hpt) as Hd'.
  set (S := sumQ num_nodes_ _).
  apply Qmult_le_0_compat.
  - apply Qmult_le_0_compat; [apply Qmult_le_0_compat|]; assumption.
  - destruct (Qlt_le_dec S 0) as [Hneg|Hpos]; nra.
Qed.

Lemma X9_witness :
  exists m,
    ComputeConsistentMass_impl sample_tol sample_element 3 skew_hex zeros2
    = Ok m /\
    forall v : View1, 0 <= quad_form num_nodes_ m v.
Proof.
  assert (Hnd : nondegenerate sample_tol sample_element skew_hex)
    by (unfold nondegenerate; at_each_point).
  destruct (ComputeConsistentMass_impl_ok sample_tol sample_element 3
              skew_hex zeros2 Hnd) as [m Hm].
  exists m. split; [exact Hm|].
  apply (X9_consistent_mass_positive_semidefinite sample_tol sample_element
           3 skew_hex zeros2 m Hm).
  - vm_compute. discriminate.
  - intros pt H.
    do 8 (destruct pt as [|pt]; [vm_compute; discriminate|]).
    exfalso. unfold num_int_pts_ in H. lia.
  - intros pt H.
    do 8 (destruct pt as [|pt]; [vm_compute; discriminate|]).
    exfalso. unfold num_int_pts_ in H. lia.
Defined.

(** X10.  When the shape values of the element's table add up to one at
    every integration point, the 64 entries of the consistent mass matrix
    add up to the density times the quadrature sum of weight times
    Jacobian determinant: the matrix carries the whole mass. *)
Theorem X10_consistent_mass_total (tol : Q) (this : HexElement)
  (density : Q) (node_reference_coords m0 m : View2) :
  partition_of_unity this ->
  ComputeConsistentMass_impl tol this density node_reference_coords m0
  = Ok m ->
  sumQ num_nodes_ (fun i => sumQ num_nodes_ (fun j => m i j)) ==
  density * element_volume this node_reference_coords.
Proof.
  intros Hpu H.
  destruct (ComputeConsistentMass_impl_inv tol this density
              node_reference_coords m0 m H) as (jac_det & Hjd & ->).
  transitivity
    (quad_form num_nodes_ (mass_loops this density jac_det m0)
       (fun _ => 1)).
  - unfold quad_form. apply sumQ_ext. intros i _.
    apply sumQ_ext. intros j _. ring.
  - rewrite mass_quad_form. unfold element_volume.
    rewrite <- sumQ_scal. apply sumQ_ext. intros int_pt Hpt.
    rewrite (Hjd int_pt Hpt).
    rewrite (sumQ_ext num_nodes_ _
               (fun i =>
                  rd (shape_fcn_vals_ this) (int_pt * num_nodes_ + i)))
      by (intros; ring).
    rewrite (Hpu int_pt Hpt). ring.
Qed.

Lemma X10_witness :
  exists m,
    ComputeConsistentMass_impl sample_tol sample_element 3 skew_hex zeros2
    = Ok m /\
    sumQ num_nodes_ (fun i => sumQ num_nodes_ (fun j => m i j)) ==
    3 * element_volume sample_element skew_hex.
Proof.
  assert (Hnd : nondegenerate sample_tol sample_element skew_hex)
    by (unfold nondegenerate; at_each_point).
  destruct (ComputeConsistentMass_impl_ok sample_tol sample_element 3
              skew_hex zeros2 Hnd) as [m Hm].
  exists m. split; [exact Hm|].
  apply (X10_consistent_mass_total sample_tol sample_element 3 skew_hex
           zeros2 m).
  - exact (HexElement_new_partition_of_unity sample_abscissa).
  - exact Hm.
Defined.

(** ** Volume averages, continued *)

(** Replaces every sum of the goal by a variable, so that [ring] and
    [field] compare the sums by name. *)
Ltac abstract_sums :=
  repeat match goal with
         | |- context [sumQ ?n ?f] =>
             let s := fresh "s" in generalize (sumQ n f); intro s
         end.

(** The whole output view of a successful call. *)
Lemma ComputeVolumeAverageQuantities_impl_full (tol : Q) (this : HexElement)
  (x u q : View2) (out0 : View1) (nq : nat) :
  nondegenerate tol this (current x u) ->
  exists out,
    ComputeVolumeAverageQuantities_impl tol this x u q out0 nq =
    Ok (out,
        sumQ num_int_pts_
          (fun int_pt => det3 (jacobian_at this (current x u) int_pt))) /\
    forall i,
      out i =
      if Nat.ltb i nq
      then sumQ num_int_pts_
             (fun int_pt =>
                q int_pt i * rd (int_wts_ this) int_pt *
                det3 (jacobian_at this (current x u) int_pt)) /
           sumQ num_int_pts_
             (fun int_pt => det3 (jacobian_at this (current x u) int_pt))
      else out0 i.
Proof.
  intros Hnd. unfold ComputeVolumeAverageQuantities_impl. cbv zeta.
  rewrite (forM_ok num_int_pts_ _ (vol_step this (current x u) q nq)).
  2:{ intros i [volume v] Hi. rewrite Invert3x3_ok by (apply Hnd, Hi).
      reflexivity. }
  destruct (vol_loop this (current x u) q nq num_int_pts_) as (Hv & Hl & Hr).
  destruct (for_ num_int_pts_ (vol_step this (current x u) q nq)
              (0, repeat 0 nq)) as [volume v].
  cbn [fst snd] in Hv, Hl, Hr. cbn [bind].
  destruct (vol_finish volume v out0 nq) as (_ & _ & Hout); [lia|].
  destruct (for_ nq _ (v, out0)) as [v' out]. cbn [fst snd] in Hout.
  exists out. split.
  - rewrite Hv. reflexivity.
  - intros i. rewrite Hout.
    destruct (Nat.ltb_spec i nq) as [Hi|Hi]; [|reflexivity].
    rewrite (Hr i Hi), Hv. reflexivity.
Qed.

(** X11.  For every element table, the volume returned by volume averaging
    on a non-degenerate geometry is the plain sum of the 8 Jacobian
    determinants (neither the quadrature weights nor the field enter it),
    and the entries [i >= num_quantities] of the output view keep their
    content; with [num_quantities = 0] nothing is written. *)
Theorem X11_volume_average_volume_and_frame (tol : Q) (this : HexElement)
  (node_reference_coords node_displacements int_pt_quantities : View2)
  (vol_ave_quantity : View1) (num_quantities : nat) :
  nondegenerate tol this (current node_reference_coords node_displacements) ->
  exists out volume,
    ComputeVolumeAverageQuantities_impl tol this node_reference_coords
      node_displacements int_pt_quantities vol_ave_quantity num_quantities
    = Ok (out, volume) /\
    volume =
    sumQ num_int_pts_
      (fun int_pt =>
         det3 (jacobian_at this
                 (current node_reference_coords node_displacements) int_pt))
    /\
    forall i, (num_quantities <= i)%nat -> out i = vol_ave_quantity i.
Proof.
  intros Hnd.
  destruct (ComputeVolumeAverageQuantities_impl_full tol this
              node_reference_coords node_displacements int_pt_quantities
              vol_ave_quantity num_quantities Hnd) as (out & Hrun & Hget).
  exists out. eexists. split; [exact Hrun|]. split; [reflexivity|].
  intros i Hi. rewrite Hget, (proj2 (Nat.ltb_ge _ _) Hi). reflexivity.
Qed.

Lemma X11_witness :
  exists out volume,
    ComputeVolumeAverageQuantities_impl sample_tol sample_element skew_hex
      sample_displacements sample_field (fun i => inject_Z (Z.of_nat i)) 0
    = Ok (out, volume) /\
    volume =
    sumQ num_int_pts_
      (fun int_pt =>
         det3 (jacobian_at sample_element
                 (current skew_hex sample_displacements) int_pt))
    /\
    forall i, (0 <= i)%nat -> out i = inject_Z (Z.of_nat i).
Proof.
  apply (X11_volume_average_volume_and_frame sample_tol sample_element
           skew_hex sample_displacements sample_field
           (fun i => inject_Z (Z.of_nat i)) 0).
  unfold nondegenerate. at_each_point.
Defined.

(** X12.  Volume averaging is linear in the integration-point field: on a
    non-degenerate geometry of non-zero volume the average of
    [a * q1 + b * q2] is [a] times the average of [q1] plus [b] times the
    average of [q2], in every component. *)
Theorem X12_volume_average_linear_in_field (tol : Q) (this : HexElement)
  (node_reference_coords node_displacements q1 q2 : View2) (a b : Q)
  (out1 out2 out0 : View1) (num_quantities : nat) :
  nondegenerate tol this (current node_reference_coords node_displacements) ->
  ~ sumQ num_int_pts_
      (fun int_pt =>
         det3 (jacobian_at this
                 (current node_reference_coords node_displacements) int_pt))
    == 0 ->
  exists o1 o2 o volume,
    ComputeVolumeAverageQuantities_impl tol this node_reference_coords
      node_displacements q1 out1 num_quantities = Ok (o1, volume) /\
    ComputeVolumeAverageQuantities_impl tol this node_reference_coords
      node_displacements q2 out2 num_quantities = Ok (o2, volume) /\
    ComputeVolumeAverageQuantities_impl tol this node_reference_coords
      node_displacements (fun int_pt i => a * q1 int_pt i + b * q2 int_pt i)
      out0 num_quantities = Ok (o, volume) /\
    forall i, (i < num_quantities)%nat -> o i == a * o1 i + b * o2 i.
Proof.
  intros Hnd Hvol.
  destruct (ComputeVolumeAverageQuantities_impl_full tol this
              node_reference_coords node_displacements q1 out1
              num_quantities Hnd) as (o1 & H1 & G1).
  destruct (ComputeVolumeAverageQuantities_impl_full tol this
              node_reference_coords node_displacements q2 out2
              num_quantities Hnd) as (o2 & H2 & G2).
  destruct (ComputeVolumeAverageQuantities_impl_full tol this
              node_reference_coords node_displacements
              (fun int_pt i => a * q1 int_pt i + b * q2 int_pt i) out0
              num_quantities Hnd) as (o & H & G).
  exists o1, o2, o. eexists.
  split; [exact H1|]. split; [exact H2|]. split; [exact H|].
  intros i Hi. rewrite G, G1, G2, (proj2 (Nat.ltb_lt _ _) Hi).
  rewrite (sumQ_ext num_int_pts_ _
             (fun int_pt =>
                a * (q1 int_pt i * rd (int_wts_ this) int_pt *
                     det3 (jacobian_at this
                        (current node_reference_coords node_displacements)
                        int_pt)) +
                b * (q2 int_pt i * rd (int_wts_ this) int_pt *
                     det3 (jacobian_at this
                        (current node_reference_coords node_displacements)
                        int_pt))))
    by (intros; ring).
  rewrite sumQ_plus, !sumQ_scal. revert Hvol. abstract_sums.
  intros Hvol. field. exact Hvol.
Qed.

Lemma X12_witness :
  exists o1 o2 o volume,
    ComputeVolumeAverageQuantities_impl sample_tol sample_element skew_hex
      sample_displacements sample_field zeros1 6 = Ok (o1, volume) /\
    ComputeVolumeAverageQuantities_impl sample_tol sample_element skew_hex
      sample_displacements sample_displacements zeros1 6 = Ok (o2, volume) /\
    ComputeVolumeAverageQuantities_impl sample_tol sample_element skew_hex
      sample_displacements
      (fun int_pt i =>
         2 * sample_field int_pt i + (-3) * sample_displacements int_pt i)
      zeros1 6 = Ok (o, volume) /\
    forall i, (i < 6)%nat -> o i == 2 * o1 i + (-3) * o2 i.
Proof.
  apply (X12_volume_average_linear_in_field sample_tol sample_element
           skew_hex sample_displacements sample_field sample_displacements
           2 (-3) zeros1 zeros1 zeros1 6).
  - unfold nondegenerate. at_each_point.
  - vm_compute. discriminate.
Defined.



(** ** Deformation gradients, continued *)

(** The entries of the Jacobian as sums over the nodes. *)
Lemma jacobian_at_entries (this : HexElement) (x : View2) (int_pt : nat) :
  let J := jacobian_at this x int_pt in
  let s0 := fun n => rd (shape_fcn_deriv_ this) (24 * int_pt + dim_ * n) in
  let s1 :=
    fun n => rd (shape_fcn_deriv_ this) (24 * int_pt + dim_ * n + 1) in
  let s2 :=
    fun n => rd (shape_fcn_deriv_ this) (24 * int_pt + dim_ * n + 2) in
  let row := fun (r : nat) (s : nat -> Q) =>
               sumQ num_nodes_ (fun n => x n r * s n) in
  (m00 J = row 0%nat s0 /\ m01 J = row 0%nat s1 /\ m02 J = row 0%nat s2) /\
  (m10 J = row 1%nat s0 /\ m11 J = row 1%nat s1 /\ m12 J = row 1%nat s2) /\
  (m20 J = row 2%nat s0 /\ m21 J = row 2%nat s1 /\ m22 J = row 2%nat s2).
Proof.
  cbv zeta. unfold jacobian_at. generalize num_nodes_ as n.
  induction n as [|n IH].
  - unfold sumQ. rewrite !for_0. repeat apply conj; reflexivity.
  - rewrite !sumQ_S, for_S.
    set (Jn := for_ n _ zero3) in *.
    destruct IH as ((E0 & E1 & E2) & (E3 & E4 & E5) & (E6 & E7 & E8)).
    cbn [add_outer m00 m01 m02 m10 m11 m12 m20 m21 m22].
    rewrite E0, E1, E2, E3, E4, E5, E6, E7, E8.
    repeat apply conj; reflexivity.
Qed.

Lemma affine_entry (n : nat) (x0 x1 x2 y s : nat -> Q) (a0 a1 a2 c : Q) :
  (forall i, (i < n)%nat -> y i == a0 * x0 i + a1 * x1 i + a2 * x2 i + c) ->
  sumQ n s == 0 ->
  sumQ n (fun i => y i * s i) ==
  a0 * sumQ n (fun i => x0 i * s i) + a1 * sumQ n (fun i => x1 i * s i) +
  a2 * sumQ n (fun i => x2 i * s i).
Proof.
  intros Hy Hs.
  rewrite (sumQ_ext n _
             (fun i =>
                a0 * (x0 i * s i) +
                (a1 * (x1 i * s i) + (a2 * (x2 i * s i) + c * s i)))).
  - rewrite !sumQ_plus, !sumQ_scal, Hs. ring.
  - intros i Hi. rewrite (Hy i Hi). ring.
Qed.

(** The Jacobian of an affinely mapped element is [A] times the Jacobian
    of the element, when the shape derivatives add up to zero. *)
Lemma jacobian_at_affine (this : HexElement) (x y : View2) (A : Mat3)
  (c : View1) (int_pt : nat) :
  derivatives_sum_zero this ->
  (int_pt < num_int_pts_)%nat ->
  (forall n k, (n < num_nodes_)%nat -> (k < 3)%nat ->
               y n k == affine_map A c x n k) ->
  Meq (jacobian_at this y int_pt) (mul3 A (jacobian_at this x int_pt)).
Proof.
  intros Hz Hpt Hy.
  pose proof (Hz int_pt 0%nat Hpt ltac:(lia)) as S0.
  pose proof (Hz int_pt 1%nat Hpt ltac:(lia)) as S1.
  pose proof (Hz int_pt 2%nat Hpt ltac:(lia)) as S2.
  rewrite (sumQ_ext _ _
             (fun n => rd (shape_fcn_deriv_ this) (24 * int_pt + dim_ * n)))
    in S0 by (intros; rewrite Nat.add_0_r; reflexivity).
  destruct (jacobian_at_entries this x int_pt)
    as ((X0 & X1 & X2) & (X3 & X4 & X5) & (X6 & X7 & X8)).
  destruct (jacobian_at_entries this y int_pt)
    as ((Y0 & Y1 & Y2) & (Y3 & Y4 & Y5) & (Y6 & Y7 & Y8)).
  cbv zeta in *.
  unfold Meq, mul3. mat_simpl.
  rewrite X0, X1, X2, X3, X4, X5, X6, X7, X8.
  rewrite Y0, Y1, Y2, Y3, Y4, Y5, Y6, Y7, Y8.
  repeat apply conj.
  1-3: apply (affine_entry num_nodes_ (fun n => x n 0%nat)
                (fun n => x n 1%nat) (fun n => x n 2%nat)
                (fun n => y n 0%nat) _ _ _ _ (c 0%nat));
    [intros n Hn; apply (Hy n 0%nat Hn); lia | assumption].
  1-3: apply (affine_entry num_nodes_ (fun n => x n 0%nat)
                (fun n => x n 1%nat) (fun n => x n 2%nat)
                (fun n => y n 1%nat) _ _ _ _ (c 1%nat));
    [intros n Hn; apply (Hy n 1%nat Hn); lia | assumption].
  1-3: apply (affine_entry num_nodes_ (fun n => x n 0%nat)
                (fun n => x n 1%nat) (fun n => x n 2%nat)
                (fun n => y n 2%nat) _ _ _ _ (c 2%nat));
    [intros n Hn; apply (Hy n 2%nat Hn); lia | assumption].
Qed.

(** [(A b) b^-1 = A], read in the 9-component order. *)
Lemma mul3_mul3_inverse (a b A : Mat3) (k : nat) :
  ~ det3 b == 0 ->
  Meq a (mul3 A b) ->
  (k < 9)%nat ->
  full_component (mul3 a (adjugate_over b (det3 b))) k ==
  full_component A k.
Proof.
  intros Hd (E0 & E1 & E2 & E3 & E4 & E5 & E6 & E7 & E8) Hk.
  destruct a, b, A. unfold mul3 in *. mat_simpl_in_all.
  do 9 (destruct k as [|k];
        [unfold full_component, mul3, adjugate_over; mat_simpl;
         rewrite ?E0, ?E1, ?E2, ?E3, ?E4, ?E5, ?E6, ?E7, ?E8;
         unfold det3 in *; mat_simpl_in_all; field; exact Hd|]).
  lia.
Qed.

Lemma def_grad_step_inv (tol : Q) (a b : Mat3) (int_pt : nat)
  (d d' : View2) :
  ('(b_inv, _) <- Invert3x3 tol b ;;
   Ok (store_def_grad d int_pt (mul3 a b_inv))) = Ok d' ->
  d' = store_def_grad d int_pt (mul3 a (adjugate_over b (det3 b))).
Proof.
  intros H.
  destruct (Invert3x3 tol b) as [[b_inv det]|e] eqn:E;
    cbn [bind] in H; [|discriminate].
  destruct (Invert3x3_ok_inv tol b b_inv det E) as (_ & -> & _).
  congruence.
Qed.

(** What the loop of lines 442-501 has written when it succeeds. *)
Lemma def_grad_loop_inv (tol : Q) (ab : nat -> Mat3 * Mat3) (n : nat)
  (d0 d : View2) :
  forM n
    (fun int_pt dg =>
       let '(a, b) := ab int_pt in
       '(b_inv, _) <- Invert3x3 tol b ;;
       let def_grad := mul3 a b_inv in
       Ok (store_def_grad dg int_pt def_grad))
    d0 = Ok d ->
  forall int_pt k,
    d int_pt k =
    if Nat.ltb int_pt n && Nat.ltb k 9
    then full_component
           (mul3 (fst (ab int_pt))
                 (adjugate_over (snd (ab int_pt)) (det3 (snd (ab int_pt)))))
           k
    else d0 int_pt k.
Proof.
  revert d. induction n as [|n IH]; intros d H int_pt k.
  - injection H as <-. reflexivity.
  - rewrite forM_S in H.
    destruct (forM n _ d0) as [d1|e]; cbn [bind] in H; [|discriminate].
    destruct (ab n) as [a b] eqn:Eab. cbv zeta in H.
    apply def_grad_step_inv in H. subst d.
    rewrite store_def_grad_get, (IH d1 eq_refl).
    destruct (Nat.eqb_spec int_pt n) as [->|Hne].
    + rewrite Eab, (proj2 (Nat.ltb_lt n (S n))) by lia.
      rewrite Nat.ltb_irrefl. cbn [andb fst snd].
      destruct (Nat.ltb k 9); reflexivity.
    + destruct (Nat.ltb_spec int_pt n), (Nat.ltb_spec int_pt (S n));
        try lia; reflexivity.
Qed.

(** X1.  An affinely mapped element has a uniform deformation gradient:
    when the current coordinates are [A x + c] for a matrix [A] and a
    vector [c], the reference Jacobians are non-degenerate and the shape
    derivatives of the table add up to zero at every integration point,
    the deformation gradient at each of the 8 points is [A], whatever the
    shape of the element.  A rigid translation ([A] the identity) gives
    the identity. *)
Theorem X1_affine_map_gives_uniform_gradient (tol : Q) (this : HexElement)
  (A : Mat3) (c : View1)
  (node_reference_coords node_displacements deformation_gradients : View2) :
  0 <= tol ->
  derivatives_sum_zero this ->
  nondegenerate tol this node_reference_coords ->
  (forall n k, (n < num_nodes_)%nat -> (k < 3)%nat ->
               current node_reference_coords node_displacements n k ==
               affine_map A c node_reference_coords n k) ->
  exists d,
    ComputeDeformationGradients_impl tol this node_reference_coords
      node_displacements deformation_gradients = Ok d /\
    forall int_pt k, (int_pt < 8)%nat -> (k < 9)%nat ->
      d int_pt k == full_component A k.
Proof.
  intros Ht Hz Hnd Hu.
  destruct (ComputeDeformationGradients_impl_run tol this
              node_reference_coords node_displacements deformation_gradients
              Hnd) as (d & Hd & Hget).
  exists d. split; [exact Hd|].
  intros int_pt k Hp Hk. rewrite (Hget int_pt k Hp Hk).
  apply mul3_mul3_inverse.
  - apply (nonzero_of_above_threshold tol); [exact Ht | apply Hnd, Hp].
  - apply (jacobian_at_affine this node_reference_coords _ A c);
      assumption.
  - exact Hk.
Qed.

Lemma X1_witness :
  exists d,
    ComputeDeformationGradients_impl sample_tol sample_element skew_hex
      (fun n k =>
         affine_map (mkMat3 2 1 0 0 1 (1 # 2) (-1) 0 3)
           (fun k => inject_Z (Z.of_nat k)) skew_hex n k - skew_hex n k)
      zeros2 = Ok d /\
    forall int_pt k, (int_pt < 8)%nat -> (k < 9)%nat ->
      d int_pt k == full_component (mkMat3 2 1 0 0 1 (1 # 2) (-1) 0 3) k.
Proof.
  apply (X1_affine_map_gives_uniform_gradient sample_tol sample_element
           (mkMat3 2 1 0 0 1 (1 # 2) (-1) 0 3)
           (fun k => inject_Z (Z.of_nat k)) skew_hex).
  - vm_compute. discriminate.
  - apply HexElement_new_derivatives_sum_zero.
  - unfold nondegenerate. at_each_point.
  - intros n k _ _. unfold current. ring.
Defined.

(** X2.  [ComputeDeformationGradients_impl] assigns the 8 x 9 block of its
    output and nothing else: the block does not depend on what the view
    held before the call, and every entry with [int_pt >= 8] or [k >= 9]
    is left as it was. *)
Theorem X2_deformation_gradients_assign_block (tol : Q) (this : HexElement)
  (node_reference_coords node_displacements d0 d0' d d' : View2) :
  ComputeDeformationGradients_impl tol this node_reference_coords
    node_displacements d0 = Ok d ->
  ComputeDeformationGradients_impl tol this node_reference_coords
    node_displacements d0' = Ok d' ->
  (forall int_pt k, (int_pt < 8)%nat -> (k < 9)%nat ->
                    d int_pt k = d' int_pt k) /\
  (forall int_pt k, (8 <= int_pt)%nat \/ (9 <= k)%nat ->
                    d int_pt k = d0 int_pt k).
Proof.
  unfold ComputeDeformationGradients_impl. intros H H'.
  pose proof (def_grad_loop_inv tol
                (jacobians_ab this node_reference_coords node_displacements)
                8 d0 d H) as G.
  pose proof (def_grad_loop_inv tol
                (jacobians_ab this node_reference_coords node_displacements)
                8 d0' d' H') as G'.
  split.
  - intros int_pt k Hp Hk. rewrite G, G'.
    rewrite (proj2 (Nat.ltb_lt _ _) Hp), (proj2 (Nat.ltb_lt _ _) Hk).
    reflexivity.
  - intros int_pt k Hout. rewrite G.
    destruct (Nat.ltb_spec int_pt 8), (Nat.ltb_spec k 9); try reflexivity.
    lia.
Qed.

Lemma X2_witness :
  exists d d',
    ComputeDeformationGradients_impl sample_tol sample_element skew_hex
      sample_displacements zeros2 = Ok d /\
    ComputeDeformationGradients_impl sample_tol sample_element skew_hex
      sample_displacements sample_field = Ok d' /\
    (forall int_pt k, (int_pt < 8)%nat -> (k < 9)%nat ->
                      d int_pt k = d' int_pt k) /\
    (forall int_pt k, (8 <= int_pt)%nat \/ (9 <= k)%nat ->
                      d int_pt k = zeros2 int_pt k).
Proof.
  assert (Hnd : nondegenerate sample_tol sample_element skew_hex)
    by (unfold nondegenerate; at_each_point).
  destruct (ComputeDeformationGradients_impl_run sample_tol sample_element
              skew_hex sample_displacements zeros2 Hnd) as (d & Hd & _).
  destruct (ComputeDeformationGradients_impl_run sample_tol sample_element
              skew_hex sample_displacements sample_field Hnd)
    as (d' & Hd' & _).
  exists d, d'. split; [exact Hd|]. split; [exact Hd'|].
  exact (X2_deformation_gradients_assign_block sample_tol sample_element
           skew_hex sample_displacements zeros2 sample_field d d' Hd Hd').
Defined.

Lemma jacobian_at_ext (this : HexElement) (x y : View2) (int_pt : nat) :
  (forall n k, (n < num_nodes_)%nat -> (k < 3)%nat -> y n k == x n k) ->
  Meq (jacobian_at this y int_pt) (jacobian_at this x int_pt).
Proof.
  intros H.
  destruct (jacobian_at_scale this x y 1 int_pt)
    as (E0 & E1 & E2 & E3 & E4 & E5 & E6 & E7 & E8).
  { intros n k Hn Hk. rewrite (H n k Hn Hk). ring. }
  unfold scale3 in *. mat_simpl_in_all. unfold Meq.
  rewrite E0, E1, E2, E3, E4, E5, E6, E7, E8.
  repeat apply conj; ring.
Qed.

(** [(a2 m^-1) (m b^-1) = a3 b^-1] when [a3 = a2], in the 9-component
    order. *)
Lemma mul3_chain (a2 a3 m b : Mat3) (k : nat) :
  ~ det3 m == 0 -> ~ det3 b == 0 -> Meq a3 a2 -> (k < 9)%nat ->
  full_component (mul3 a3 (adjugate_over b (det3 b))) k ==
  full_component
    (mul3 (mul3 a2 (adjugate_over m (det3 m)))
          (mul3 m (adjugate_over b (det3 b)))) k.
Proof.
  intros Hm Hb (E0 & E1 & E2 & E3 & E4 & E5 & E6 & E7 & E8) Hk.
  destruct a2, a3, m, b. mat_simpl_in_all.
  do 9 (destruct k as [|k];
        [unfold full_component, mul3, adjugate_over; mat_simpl;
         rewrite ?E0, ?E1, ?E2, ?E3, ?E4, ?E5, ?E6, ?E7, ?E8;
         unfold det3 in *; mat_simpl_in_all; field; split; assumption|]).
  lia.
Qed.

(** The tensor read back from a view that holds [F] in its 9 slots at
    [int_pt] multiplies like [F]. *)
Lemma mul3_tensor_at (d1 d2 : View2) (F1 F2 : Mat3) (int_pt k : nat) :
  (forall c, (c < 9)%nat -> d1 int_pt c = full_component F1 c) ->
  (forall c, (c < 9)%nat -> d2 int_pt c = full_component F2 c) ->
  full_component (mul3 (tensor_at d2 int_pt) (tensor_at d1 int_pt)) k =
  full_component (mul3 F2 F1) k.
Proof.
  intros H1 H2. unfold tensor_at, mul3.
  unfold K_F_XX_, K_F_YY_, K_F_ZZ_, K_F_XY_, K_F_YZ_, K_F_ZX_,
    K_F_YX_, K_F_ZY_, K_F_XZ_.
  mat_simpl.
  rewrite !H1, !H2 by lia. reflexivity.
Qed.

(** X14.  Deformation gradients compose by the chain rule: when the
    element is moved by [u1] and then by [u2], the gradient of the total
    motion [u1 + u2] with respect to the reference configuration is, at
    each integration point, the product of the gradient of the second step
    (computed with the intermediate configuration as reference) and the
    gradient of the first step. *)
Theorem X14_deformation_gradients_chain_rule (tol : Q) (this : HexElement)
  (node_reference_coords u1 u2 deformation_gradients : View2) :
  0 <= tol ->
  nondegenerate tol this node_reference_coords ->
  nondegenerate tol this (current node_reference_coords u1) ->
  exists d1 d2 d3,
    ComputeDeformationGradients_impl tol this node_reference_coords u1
      deformation_gradients = Ok d1 /\
    ComputeDeformationGradients_impl tol this
      (current node_reference_coords u1) u2 deformation_gradients = Ok d2 /\
    ComputeDeformationGradients_impl tol this node_reference_coords
      (fun n k => u1 n k + u2 n k) deformation_gradients = Ok d3 /\
    forall int_pt k, (int_pt < 8)%nat -> (k < 9)%nat ->
      d3 int_pt k ==
      full_component (mul3 (tensor_at d2 int_pt) (tensor_at d1 int_pt)) k.
Proof.
  intros Ht Hx Hy.
  destruct (ComputeDeformationGradients_impl_run tol this
              node_reference_coords u1 deformation_gradients Hx)
    as (d1 & R1 & G1).
  destruct (ComputeDeformationGradients_impl_run tol this
              (current node_reference_coords u1) u2 deformation_gradients Hy)
    as (d2 & R2 & G2).
  destruct (ComputeDeformationGradients_impl_run tol this
              node_reference_coords (fun n k => u1 n k + u2 n k)
              deformation_gradients Hx)
    as (d3 & R3 & G3).
  exists d1, d2, d3.
  split; [exact R1|]. split; [exact R2|]. split; [exact R3|].
  intros int_pt k Hp Hk.
  rewrite (mul3_tensor_at d1 d2 _ _ int_pt k
             (fun c Hc => G1 int_pt c Hp Hc) (fun c Hc => G2 int_pt c Hp Hc)).
  rewrite (G3 int_pt k Hp Hk).
  apply mul3_chain.
  - apply (nonzero_of_above_threshold tol); [exact Ht | apply Hy, Hp].
  - apply (nonzero_of_above_threshold tol); [exact Ht | apply Hx, Hp].
  - apply jacobian_at_ext. intros n c _ _. unfold current. ring.
  - exact Hk.
Qed.

Lemma X14_witness :
  exists d1 d2 d3,
    ComputeDeformationGradients_impl sample_tol sample_element unit_cube
      (dilated 2 unit_cube) zeros2 = Ok d1 /\
    ComputeDeformationGradients_impl sample_tol sample_element
      (current unit_cube (dilated 2 unit_cube)) sample_displacements zeros2
    = Ok d2 /\
    ComputeDeformationGradients_impl sample_tol sample_element unit_cube
      (fun n k => dilated 2 unit_cube n k + sample_displacements n k) zeros2
    = Ok d3 /\
    forall int_pt k, (int_pt < 8)%nat -> (k < 9)%nat ->
      d3 int_pt k ==
      full_component (mul3 (tensor_at d2 int_pt) (tensor_at d1 int_pt)) k.
Proof.
  apply (X14_deformation_gradients_chain_rule sample_tol sample_element
           unit_cube (dilated 2 unit_cube) sample_displacements zeros2).
  - vm_compute. discriminate.
  - unfold nondegenerate. at_each_point.
  - unfold nondegenerate. at_each_point.
Defined.
